(** * Fake-News-Detector: the inference pipeline of popup.js

    A shallow embedding of the Porter stemmer (NLTK extensions mode), the
    text preprocessing function [stemming], the TF-IDF vectorizer
    [SimpleTFIDF], the [LogisticRegression] predictor, [loadModel] and
    the branches of [displayResult] and [analyzeArticle] that use them,
    followed by the properties of the specification and further
    properties of the code.

    Conventions of the embedding.
    - A JavaScript string is a [list ascii]: a sequence of code units in
      the range U+0000..U+00FF (Latin-1).  Code units above U+00FF are
      outside the model; [stemming] replaces every one of them by a space
      before anything else looks at the text.
    - A JavaScript number is a real number or NaN ([num]).  Rounding,
      overflow and the infinities of IEEE doubles are outside the model:
      a theorem on numbers says which operations the code applies to
      which operands, or states a bound that rounding preserves.
    - [undefined] read from an array out of range becomes NaN as soon as
      arithmetic touches it, as in JavaScript. *)

From Stdlib Require Import Ascii String.
From Stdlib Require Import List Bool Arith Lia NArith ZArith.
From Stdlib Require Import Reals Lra.
From Stdlib Require Import Permutation.
Import ListNotations.

Set Implicit Arguments.

(* ================================================================== *)
(** * JavaScript strings *)
(* ================================================================== *)

Module JS.

Definition jsstring := list ascii.

(** String literals of the source. *)
Definition str (s : string) : jsstring := list_ascii_of_string s.
Arguments str s%_string.

Fixpoint eqb (a b : jsstring) : bool :=
  match a, b with
  | [], [] => true
  | x :: a', y :: b' => Ascii.eqb x y && eqb a' b'
  | _, _ => false
  end.

Definition code (c : ascii) : N := N_of_ascii c.

(** [/[a-zA-Z]/] *)
Definition isAsciiLetter (c : ascii) : bool :=
  ((65 <=? code c) && (code c <=? 90) || (97 <=? code c) && (code c <=? 122))%N.

Definition isLowerLetter (c : ascii) : bool :=
  ((97 <=? code c) && (code c <=? 122))%N.

(** Code units with an upper-case mapping inside Latin-1: A-Z and
    U+00C0..U+00DE except the multiplication sign U+00D7. *)
Definition hasLower (c : ascii) : bool :=
  ((65 <=? code c) && (code c <=? 90)
   || (192 <=? code c) && (code c <=? 222) && negb (code c =? 215))%N.

Definition lowerChar (c : ascii) : ascii :=
  if hasLower c then ascii_of_N (code c + 32) else c.

(** [String.prototype.toLowerCase] *)
Definition toLowerCase (s : jsstring) : jsstring := map lowerChar s.

(** [/\s/] on Latin-1: TAB, LF, VT, FF, CR, SPACE, NBSP. *)
Definition isWhiteSpace (c : ascii) : bool :=
  ((code c =? 9) || (code c =? 10) || (code c =? 11) || (code c =? 12)
   || (code c =? 13) || (code c =? 32) || (code c =? 160))%N.

Fixpoint startsWith (s p : jsstring) {struct p} : bool :=
  match p, s with
  | [], _ => true
  | x :: p', y :: s' => Ascii.eqb x y && startsWith s' p'
  | _ :: _, [] => false
  end.

(** [s.endsWith(suffix)]: the last [suffix.length] code units of [s] are
    [suffix]; false when [suffix] is longer than [s]. *)
Definition endsWith (s suffix : jsstring) : bool :=
  (length suffix <=? length s)
  && eqb (skipn (length s - length suffix) s) suffix.

(** [s.slice(0, -k)].  For [k = 0] the end index is [-0 = 0] and the
    slice is empty; otherwise the end index is [max (len - k) 0]. *)
Definition sliceEnd (s : jsstring) (k : nat) : jsstring :=
  if k =? 0 then [] else firstn (length s - k) s.

(** [s[i]]: [None] stands for [undefined]. *)
Definition charAt (s : jsstring) (i : nat) : option ascii := nth_error s i.

(** [s[s.length - 1]]; index [-1] on the empty string is [undefined]. *)
Definition lastChar (s : jsstring) : option ascii :=
  match length s with
  | 0 => None
  | S n => charAt s n
  end.

Definition isChar (o : option ascii) (c : ascii) : bool :=
  match o with
  | Some x => Ascii.eqb x c
  | None => false
  end.

(** [s.indexOf(pat, pos)]; [None] stands for [-1]. *)
Fixpoint findFrom (s pat : jsstring) (k : nat) : option nat :=
  if startsWith s pat then Some k
  else match s with
       | [] => None
       | _ :: t => findFrom t pat (S k)
       end.

Definition indexOf (s pat : jsstring) (pos : nat) : option nat :=
  findFrom (skipn pos s) pat (Nat.min pos (length s)).

(** [s.split(/\s+/)]: the pieces between maximal runs of white space,
    with an empty first or last piece when the string starts or ends
    with white space, and one empty piece for the empty string.  [cur] holds the
    current piece reversed; [gap] tells that a separator run is being
    read. *)
Fixpoint splitWS (s : jsstring) (cur : jsstring) (gap : bool) : list jsstring :=
  match s with
  | [] => [rev cur]
  | c :: rest =>
      if isWhiteSpace c then
        if gap then splitWS rest [] true
        else rev cur :: splitWS rest [] true
      else splitWS rest (c :: cur) false
  end.

Definition split (s : jsstring) : list jsstring := splitWS s [] false.

(** [xs.join(' ')] on strings. *)
Fixpoint join (xs : list jsstring) : jsstring :=
  match xs with
  | [] => []
  | [x] => x
  | x :: rest => x ++ " "%char :: join rest
  end.

(** ** Objects and Maps used as dictionaries

    An association list in insertion order; [set] on an existing key
    keeps its position, as [Map.prototype.set] and property assignment
    do. *)
Section Dict.
Variable V : Type.

Definition dict := list (jsstring * V).

Fixpoint get (m : dict) (k : jsstring) : option V :=
  match m with
  | [] => None
  | (k', v) :: rest => if eqb k' k then Some v else get rest k
  end.

Fixpoint set (m : dict) (k : jsstring) (v : V) : dict :=
  match m with
  | [] => [(k, v)]
  | (k', v') :: rest =>
      if eqb k' k then (k', v) :: rest else (k', v') :: set rest k v
  end.

Definition keys (m : dict) : list jsstring := map fst m.
End Dict.

(** ** Values a property read can produce *)
Inductive value :=
| VString (s : jsstring)
| VNative (name : jsstring)     (* a built-in function object *)
| VObjectPrototype.             (* the object [Object.prototype] *)

(** [ToBoolean] *)
Definition truthy (v : value) : bool :=
  match v with
  | VString [] => false
  | _ => true
  end.

(** [ToString], as [Array.prototype.join] applies it to an element. *)
Definition toString (v : value) : jsstring :=
  match v with
  | VString s => s
  | VNative name => str "function " ++ name ++ str "() { [native code] }"
  | VObjectPrototype => str "[object Object]"
  end.

(** Properties every object literal inherits from [Object.prototype]. *)
Definition objectPrototype : dict value :=
  (str "constructor", VNative (str "Object"))
  :: map (fun n => (str n, VNative (str n)))
       ["hasOwnProperty"; "isPrototypeOf"; "propertyIsEnumerable";
        "toLocaleString"; "toString"; "valueOf"; "__defineGetter__";
        "__defineSetter__"; "__lookupGetter__"; "__lookupSetter__"]%string
  ++ [(str "__proto__", VObjectPrototype)].

(** [obj[k]] for an object literal [obj] with string-valued own
    properties: own property first, then the prototype chain. *)
Definition getProp (own : dict jsstring) (k : jsstring) : option value :=
  match get own k with
  | Some s => Some (VString s)
  | None => get objectPrototype k
  end.

End JS.

Import JS.

(* ================================================================== *)
(** * PorterStemmer *)
(* ================================================================== *)

Module PorterStemmer.

(** The table of the constructor, stem to forms. *)
Definition irregularForms : list (jsstring * list jsstring) :=
  [ (str "sky", [str "sky"; str "skies"]);
    (str "die", [str "dying"]);
    (str "lie", [str "lying"]);
    (str "tie", [str "tying"]);
    (str "news", [str "news"]);
    (str "inning", [str "innings"; str "inning"]);
    (str "outing", [str "outings"; str "outing"]);
    (str "canning", [str "cannings"; str "canning"]);
    (str "howe", [str "howe"]);
    (str "proceed", [str "proceed"]);
    (str "exceed", [str "exceed"]);
    (str "succeed", [str "succeed"]) ].

(** [this.pool]: the table inverted, form to stem, by the two nested
    loops of the constructor. *)
Definition pool : dict jsstring :=
  fold_left
    (fun p entry =>
       let '(stem, forms) := entry in
       fold_left (fun p form => set p form stem) forms p)
    irregularForms [].

(** [this.vowels.has(c)]; [undefined] is not in the set. *)
Definition isVowel (o : option ascii) : bool :=
  isChar o "a" || isChar o "e" || isChar o "i" || isChar o "o" || isChar o "u".

Fixpoint isConsonant (word : jsstring) (i : nat) : bool :=
  if isVowel (charAt word i) then false
  else if isChar (charAt word i) "y" then
         match i with
         | 0 => true
         | S j => negb (isConsonant word j)
         end
       else true.

(** The first loop of [measure]: one ['c'] or ['v'] per position. *)
Definition cvSequence (stem : jsstring) : jsstring :=
  map (fun i => if isConsonant stem i then "c"%char else "v"%char)
      (seq 0 (length stem)).

(** The [while] loop of [measure].  Each round moves [pos] strictly to
    the right, so [length cv] rounds are enough (lemma
    [countLoopF_enough] below); [fuel] only makes the recursion
    structural. *)
Fixpoint countLoop (fuel : nat) (cv : jsstring)
                   (pos : option nat) (count : nat) : nat :=
  match pos with
  | None => count
  | Some p =>
      match fuel with
      | 0 => count
      | S f => countLoop f cv (indexOf cv (str "vc") (p + 1)) (count + 1)
      end
  end.

Definition measure (stem : jsstring) : nat :=
  let cv := cvSequence stem in
  countLoop (length cv) cv (indexOf cv (str "vc") 0) 0.

Definition hasPositiveMeasure (stem : jsstring) : bool := 0 <? measure stem.

Definition containsVowel (stem : jsstring) : bool :=
  existsb (fun i => negb (isConsonant stem i)) (seq 0 (length stem)).

(** [word[a] === word[b]] on characters read inside the string. *)
Definition sameChar (a b : option ascii) : bool :=
  match a, b with
  | Some x, Some y => Ascii.eqb x y
  | None, None => true
  | _, _ => false
  end.

Definition endsDoubleConsonant (word : jsstring) : bool :=
  (2 <=? length word)
  && sameChar (charAt word (length word - 1)) (charAt word (length word - 2))
  && isConsonant word (length word - 1).

Definition endsCVC (word : jsstring) : bool :=
  let len := length word in
  let standardCVC :=
    (3 <=? len)
    && isConsonant word (len - 3)
    && negb (isConsonant word (len - 2))
    && isConsonant word (len - 1)
    && negb (isChar (charAt word (len - 1)) "w"
             || isChar (charAt word (len - 1)) "x"
             || isChar (charAt word (len - 1)) "y") in
  let nltkCVC :=
    (len =? 2) && negb (isConsonant word 0) && isConsonant word 1 in
  standardCVC || nltkCVC.

Definition replaceSuffix (word suffix replacement : jsstring) : jsstring :=
  if negb (endsWith word suffix) then word
  else if eqb suffix [] then word ++ replacement
  else sliceEnd word (length suffix) ++ replacement.

(** A rule [[suffix, replacement, condition]]; [None] is [null].  The
    tables are written once, over the type [C] of the conditions:
    [condition] for the stemmer itself and, further down, fuelled
    conditions for the account of its recursion. *)
Definition rule (C : Type) := (jsstring * jsstring * option C)%type.

Definition condition := jsstring -> bool.

(** [!condition || condition(stem)] *)
Definition holds (c : option condition) (stem : jsstring) : bool :=
  match c with
  | None => true
  | Some f => f stem
  end.

Fixpoint applyRuleList (word : jsstring) (rules : list (rule condition)) : jsstring :=
  match rules with
  | [] => word
  | (suffix, replacement, c) :: rest =>
      if eqb suffix (str "*d") && endsDoubleConsonant word then
        let stem := sliceEnd word 2 in
        if holds c stem then stem ++ replacement else word
      else if endsWith word suffix then
        let stem := replaceSuffix word suffix [] in
        if holds c stem then stem ++ replacement else word
      else applyRuleList word rest
  end.

Definition step1aRules (C : Type) : list (rule C) :=
  [ (str "sses", str "ss", None);
    (str "ies", str "i", None);
    (str "ss", str "ss", None);
    (str "s", [], None) ].

Definition step1a (word : jsstring) : jsstring :=
  if endsWith word (str "ies") && (length word =? 4) then
    replaceSuffix word (str "ies") (str "ie")
  else applyRuleList word (step1aRules condition).

(** [intermediateStem[intermediateStem.length - 1]] used as a string in
    a concatenation: [undefined] would be spelled out. *)
Definition lastCharString (s : jsstring) : jsstring :=
  match lastChar s with
  | Some c => [c]
  | None => str "undefined"
  end.

(** The loop of [step1b] over ["ed", "ing"], leaving at the first
    suffix whose removal keeps a vowel. *)
Definition step1bSuffix (word : jsstring) : option jsstring :=
  find (fun suffix =>
          endsWith word suffix && containsVowel (replaceSuffix word suffix []))
       [str "ed"; str "ing"].

(** [!["l", "s", "z"].includes(last)] *)
Definition notLSZ (intermediateStem : jsstring) : bool :=
  let last := lastChar intermediateStem in
  negb (isChar last "l" || isChar last "s" || isChar last "z").

(** The cleanup rules of [step1b]; [single] is the condition of the
    double-consonant rule, [cvc] the one of the last rule. *)
Definition step1bRules (C : Type) (intermediateStem : jsstring)
                       (single cvc : C) : list (rule C) :=
  [ (str "at", str "ate", None);
    (str "bl", str "ble", None);
    (str "iz", str "ize", None);
    (str "*d", lastCharString intermediateStem, Some single);
    ([], str "e", Some cvc) ].

Definition step1b (word : jsstring) : jsstring :=
  if endsWith word (str "ied") then
    if length word =? 4 then replaceSuffix word (str "ied") (str "ie")
    else replaceSuffix word (str "ied") (str "i")
  else if endsWith word (str "eed") then
    let stem := replaceSuffix word (str "eed") [] in
    if 0 <? measure stem then stem ++ str "ee" else word
  else
    match step1bSuffix word with
    | None => word
    | Some suffix =>
        let intermediateStem := replaceSuffix word suffix [] in
        applyRuleList intermediateStem
          (step1bRules intermediateStem
             (fun _ => notLSZ intermediateStem)
             (fun stem => (measure stem =? 1) && endsCVC stem))
    end.

Definition step1cRules (C : Type) (nltkCondition : C) : list (rule C) :=
  [ (str "y", str "i", Some nltkCondition) ].

Definition step1c (word : jsstring) : jsstring :=
  let nltkCondition := fun stem : jsstring =>
    (1 <? length stem) && isConsonant stem (length stem - 1) in
  applyRuleList word (step1cRules nltkCondition).

(** The rule table of [step2]; [logi] is the condition of its last
    rule. *)
Definition step2Rules (C : Type) (measurePos logi : C) : list (rule C) :=
  [ (str "ational", str "ate", Some measurePos);
    (str "tional", str "tion", Some measurePos);
    (str "enci", str "ence", Some measurePos);
    (str "anci", str "ance", Some measurePos);
    (str "izer", str "ize", Some measurePos);
    (str "bli", str "ble", Some measurePos);
    (str "alli", str "al", Some measurePos);
    (str "entli", str "ent", Some measurePos);
    (str "eli", str "e", Some measurePos);
    (str "ousli", str "ous", Some measurePos);
    (str "ization", str "ize", Some measurePos);
    (str "ation", str "ate", Some measurePos);
    (str "ator", str "ate", Some measurePos);
    (str "alism", str "al", Some measurePos);
    (str "iveness", str "ive", Some measurePos);
    (str "fulness", str "ful", Some measurePos);
    (str "ousness", str "ous", Some measurePos);
    (str "aliti", str "al", Some measurePos);
    (str "iviti", str "ive", Some measurePos);
    (str "biliti", str "ble", Some measurePos);
    (str "fulli", str "ful", Some measurePos);
    (str "logi", str "log", Some logi) ].

(** [step2] after its recursive test: the table applied to [word]. *)
Definition step2Table (word : jsstring) : jsstring :=
  applyRuleList word
    (step2Rules hasPositiveMeasure
       (fun _ => hasPositiveMeasure (sliceEnd word 3))).

(** [step2] calls itself on a shorter word; [fuel] bounds the depth of
    these calls and [length word] is always enough (lemma [step2_eq]). *)
Fixpoint step2Rec (fuel : nat) (word : jsstring) : jsstring :=
  match fuel with
  | S f =>
      if endsWith word (str "alli")
         && hasPositiveMeasure (replaceSuffix word (str "alli") [])
      then step2Rec f (replaceSuffix word (str "alli") (str "al"))
      else step2Table word
  | 0 => step2Table word
  end.

Definition step2 (word : jsstring) : jsstring := step2Rec (length word) word.

Definition step3Rules (C : Type) (measurePos : C) : list (rule C) :=
  [ (str "icate", str "ic", Some measurePos);
    (str "ative", [], Some measurePos);
    (str "alize", str "al", Some measurePos);
    (str "iciti", str "ic", Some measurePos);
    (str "ical", str "ic", Some measurePos);
    (str "ful", [], Some measurePos);
    (str "ness", [], Some measurePos) ].

Definition step3 (word : jsstring) : jsstring :=
  applyRuleList word (step3Rules hasPositiveMeasure).

(** The table of [step4]; [ion] is the condition of the "ion" rule. *)
Definition step4Rules (C : Type) (measureGt1 ion : C) : list (rule C) :=
  [ (str "al", [], Some measureGt1);
    (str "ance", [], Some measureGt1);
    (str "ence", [], Some measureGt1);
    (str "er", [], Some measureGt1);
    (str "ic", [], Some measureGt1);
    (str "able", [], Some measureGt1);
    (str "ible", [], Some measureGt1);
    (str "ant", [], Some measureGt1);
    (str "ement", [], Some measureGt1);
    (str "ment", [], Some measureGt1);
    (str "ent", [], Some measureGt1);
    (str "ion", [], Some ion);
    (str "ou", [], Some measureGt1);
    (str "ism", [], Some measureGt1);
    (str "ate", [], Some measureGt1);
    (str "iti", [], Some measureGt1);
    (str "ous", [], Some measureGt1);
    (str "ive", [], Some measureGt1);
    (str "ize", [], Some measureGt1) ].

(** [["s", "t"].includes(stem[stem.length - 1])] *)
Definition endsST (stem : jsstring) : bool :=
  isChar (lastChar stem) "s" || isChar (lastChar stem) "t".

Definition step4 (word : jsstring) : jsstring :=
  applyRuleList word
    (step4Rules (fun stem => 1 <? measure stem)
                (fun stem => (1 <? measure stem) && endsST stem)).

Definition step5a (word : jsstring) : jsstring :=
  if endsWith word (str "e") then
    let stem := replaceSuffix word (str "e") [] in
    let m := measure stem in
    if 1 <? m then stem
    else if (m =? 1) && negb (endsCVC stem) then stem
    else word
  else word.

Definition step5bRules (C : Type) (c : C) : list (rule C) :=
  [ (str "ll", str "l", Some c) ].

Definition step5b (word : jsstring) : jsstring :=
  applyRuleList word
    (step5bRules (fun _ : jsstring => 1 <? measure (sliceEnd word 1))).

(** The eight steps in order. *)
Definition steps (w : jsstring) : jsstring :=
  step5b (step5a (step4 (step3 (step2 (step1c (step1b (step1a w))))))).

(** [stem] after the pool lookup: the length test and the steps. *)
Definition stemRules (w : jsstring) : value :=
  if length w <=? 2 then VString w else VString (steps w).

Definition stem (word : jsstring) : value :=
  let w := toLowerCase word in
  match getProp pool w with
  | Some v => if truthy v then v else stemRules w
  | None => stemRules w
  end.

End PorterStemmer.

(* ================================================================== *)
(** * Text preprocessing *)
(* ================================================================== *)

Import PorterStemmer.

Definition STOPWORDS : list jsstring :=
  map str
  [ "i"; "me"; "my"; "myself"; "we"; "our"; "ours"; "ourselves"; "you"; "you're";
    "you've"; "you'll"; "you'd"; "your"; "yours"; "yourself"; "yourselves"; "he";
    "him"; "his"; "himself"; "she"; "she's"; "her"; "hers"; "herself"; "it"; "it's";
    "its"; "itself"; "they"; "them"; "their"; "theirs"; "themselves"; "what"; "which";
    "who"; "whom"; "this"; "that"; "that'll"; "these"; "those"; "am"; "is"; "are";
    "was"; "were"; "be"; "been"; "being"; "have"; "has"; "had"; "having"; "do";
    "does"; "did"; "doing"; "a"; "an"; "the"; "and"; "but"; "if"; "or"; "because";
    "as"; "until"; "while"; "of"; "at"; "by"; "for"; "with"; "about"; "against";
    "between"; "into"; "through"; "during"; "before"; "after"; "above"; "below";
    "to"; "from"; "up"; "down"; "in"; "out"; "on"; "off"; "over"; "under"; "again";
    "further"; "then"; "once"; "here"; "there"; "when"; "where"; "why"; "how"; "all";
    "both"; "each"; "few"; "more"; "most"; "other"; "some"; "such"; "no"; "nor";
    "not"; "only"; "own"; "same"; "so"; "than"; "too"; "very"; "s"; "t"; "can";
    "will"; "just"; "don"; "don't"; "should"; "should've"; "now"; "d"; "ll"; "m";
    "o"; "re"; "ve"; "y"; "ain"; "aren"; "aren't"; "couldn"; "couldn't"; "didn";
    "didn't"; "doesn"; "doesn't"; "hadn"; "hadn't"; "hasn"; "hasn't"; "haven";
    "haven't"; "isn"; "isn't"; "ma"; "mightn"; "mightn't"; "mustn"; "mustn't";
    "needn"; "needn't"; "shan"; "shan't"; "shouldn"; "shouldn't"; "wasn"; "wasn't";
    "weren"; "weren't"; "won"; "won't"; "wouldn"; "wouldn't" ]%string.

(** [STOPWORDS.has(word)] *)
Definition isStopword (word : jsstring) : bool := existsb (eqb word) STOPWORDS.

(** [content.replace(/[^a-zA-Z]/g, ' ')] *)
Definition removeNonAlpha (content : jsstring) : jsstring :=
  map (fun c => if isAsciiLetter c then c else " "%char) content.

(** [s.split(/\s+/).filter(word => word.length > 0)] *)
Definition splitWords (s : jsstring) : list jsstring :=
  filter (fun word => 0 <? length word) (split s).

(** The array [words] of [stemming] just before it is joined: the
    output of the stemmer for every word that is not a stopword. *)
Definition stemmingWords (content : jsstring) : list value :=
  let processed := toLowerCase (removeNonAlpha content) in
  let words := splitWords processed in
  map stem (filter (fun word => negb (isStopword word)) words).

Definition stemming (content : jsstring) : jsstring :=
  join (map toString (stemmingWords content)).

(* ================================================================== *)
(** * Numbers *)
(* ================================================================== *)

Inductive num :=
| Num (r : R)
| NaN.

Definition lift2 (f : R -> R -> R) (a b : num) : num :=
  match a, b with
  | Num x, Num y => Num (f x y)
  | _, _ => NaN
  end.

Definition lift1 (f : R -> R) (a : num) : num :=
  match a with
  | Num x => Num (f x)
  | NaN => NaN
  end.

Definition nadd := lift2 Rplus.
Definition nsub := lift2 Rminus.
Definition nmul := lift2 Rmult.
(** [a / b]; the program only divides by strictly positive numbers
    (a positive norm, and [1 + exp(-score)]). *)
Definition ndiv := lift2 Rdiv.
Definition nneg := lift1 Ropp.
Definition nexp := lift1 exp.
Definition nsqrt := lift1 sqrt.

(** [a > b]; every comparison with NaN is false. *)
Definition ngt (a b : num) : bool :=
  match a, b with
  | Num x, Num y => if Rgt_dec x y then true else false
  | _, _ => false
  end.

(** [xs[i]] used in arithmetic: [undefined] becomes NaN. *)
Definition readNum (xs : list R) (i : nat) : num :=
  match nth_error xs i with
  | Some x => Num x
  | None => NaN
  end.

(** [features[idx] = val] with [idx] inside the array.  A write beyond
    the end, which makes a JavaScript array grow, is outside the model:
    for a vectorizer built by the constructor [transform] only writes
    at indices of the vocabulary, lemma [vocabMap_sound]. *)
Fixpoint writeAt (A : Type) (features : list A) (idx : nat) (val : A) : list A :=
  match features, idx with
  | [], _ => []
  | _ :: rest, 0 => val :: rest
  | f :: rest, S j => f :: writeAt rest j val
  end.

(* ================================================================== *)
(** * SimpleTFIDF *)
(* ================================================================== *)

Record SimpleTFIDF := {
  vocabulary : list jsstring;
  idfValues : list R;
  vocabMap : dict nat
}.

(** [vocabulary.forEach((word, idx) => this.vocabMap.set(word, idx))] *)
Fixpoint buildVocabMap (vocabulary : list jsstring) (idx : nat)
                       (m : dict nat) : dict nat :=
  match vocabulary with
  | [] => m
  | word :: rest => buildVocabMap rest (S idx) (set m word idx)
  end.

Definition newSimpleTFIDF (vocabulary : list jsstring) (idfValues : list R)
  : SimpleTFIDF :=
  {| vocabulary := vocabulary;
     idfValues := idfValues;
     vocabMap := buildVocabMap vocabulary 0 [] |}.

(** Step 1 of [transform]. *)
Definition tokens (text : jsstring) : list jsstring :=
  splitWords (stemming text).

(** Step 2: [termCounts.set(token, (termCounts.get(token) || 0) + 1)] *)
Definition countToken (termCounts : dict nat) (token : jsstring) : dict nat :=
  set termCounts token
      (match get termCounts token with
       | Some 0 | None => 0
       | Some n => n
       end + 1).

Definition termCounts (toks : list jsstring) : dict nat :=
  fold_left countToken toks [].

(** Step 3: the body of [termCounts.forEach], on the pair
    [(features, sumSquares)]. *)
Definition addTerm (this : SimpleTFIDF) (st : list num * num)
                   (entry : jsstring * nat) : list num * num :=
  let '(features, sumSquares) := st in
  let '(word, count) := entry in
  match get (vocabMap this) word with
  | Some idx =>
      let val := nmul (Num (INR count)) (readNum (idfValues this) idx) in
      (writeAt features idx val, nadd sumSquares (nmul val val))
  | None => st
  end.

Definition rawVector (this : SimpleTFIDF) (text : jsstring) : list num * num :=
  fold_left (addTerm this) (termCounts (tokens text))
            (repeat (Num 0) (length (vocabulary this)), Num 0).

(** Step 4 *)
Definition transform (this : SimpleTFIDF) (text : jsstring) : list num :=
  let '(features, sumSquares) := rawVector this text in
  if ngt sumSquares (Num 0) then
    let norm := nsqrt sumSquares in
    map (fun f => ndiv f norm) features
  else features.

(* ================================================================== *)
(** * LogisticRegression *)
(* ================================================================== *)

Record LogisticRegression := {
  coef : list R;
  intercept : R
}.

Record Prediction := {
  prediction : nat;
  confidence : num;
  fakeProbability : num;
  realProbability : num
}.

(** The [for] loop of [predict], from index [i] on. *)
Fixpoint scoreLoop (this : LogisticRegression) (features : list num)
                   (i : nat) (score : num) : num :=
  match features with
  | [] => score
  | f :: rest =>
      scoreLoop this rest (S i) (nadd score (nmul f (readNum (coef this) i)))
  end.

Definition predict (this : LogisticRegression) (features : list num) : Prediction :=
  let score := scoreLoop this features 0 (Num (intercept this)) in
  let probability := ndiv (Num 1) (nadd (Num 1) (nexp (nneg score))) in
  {| prediction := if ngt probability (Num (1/2)) then 1 else 0;
     confidence := if ngt probability (Num (1/2)) then probability
                   else nsub (Num 1) probability;
     fakeProbability := probability;
     realProbability := nsub (Num 1) probability |}.

(* ================================================================== *)
(** * loadModel *)
(* ================================================================== *)

(** The parsed [model_params.json], for a file whose four fields have
    the types the code expects: an array of strings, two arrays of
    numbers and a number.  Nothing is assumed about their lengths. *)
Record ModelData := {
  md_vocabulary : list jsstring;
  md_idf_values : list R;
  md_coefficients : list R;
  md_intercept : R
}.

(** [fetched] is what the [try] block of [loadModel] has in hand once
    its fallible calls are over: [None] when one of them throws, which
    the [catch] turns into [null].  The calls that can throw are
    [fetch], [response.json()] and the constructor of [SimpleTFIDF],
    whose [vocabulary.forEach] needs an array.  On a parsed bundle of
    the expected types the two constructors only store their arguments
    and fill the map. *)
Definition loadModel (fetched : option ModelData)
  : option (SimpleTFIDF * LogisticRegression) :=
  match fetched with
  | Some modelData =>
      let vectorizer :=
        newSimpleTFIDF (md_vocabulary modelData) (md_idf_values modelData) in
      let model :=
        {| coef := md_coefficients modelData;
           intercept := md_intercept modelData |} in
      Some (vectorizer, model)
  | None => None
  end.

(** [.sort((a, b) => b.val - a.val)] on the features above zero, each
    with its position: a stable sort, largest value first.  [insertDesc]
    puts a feature in front of the first one that is not larger. *)
Fixpoint insertDesc (f : nat * num) (sorted : list (nat * num))
  : list (nat * num) :=
  match sorted with
  | [] => [f]
  | g :: rest =>
      if ngt (snd g) (snd f) then g :: insertDesc f rest else f :: g :: rest
  end.

Definition sortDesc (fs : list (nat * num)) : list (nat * num) :=
  fold_right insertDesc [] fs.

(** The table of [analyzeArticle]: the features above zero with their
    positions, sorted, the first twenty.  The fields [word] and [coef]
    of an entry are [vocabulary[idx]] and [coef[idx]]. *)
Definition topFeatures (features : list num) : list (nat * num) :=
  firstn 20
    (sortDesc (filter (fun f => ngt (snd f) (Num 0))
                      (combine (seq 0 (length features)) features))).

(** [topFeatures.forEach]: the line printed for an entry calls
    [f.word.padEnd(20)] and [f.coef.toFixed(8)], a TypeError when the
    word or the coefficient of that position is [undefined]. *)
Definition topFeaturesThrow (vectorizer : SimpleTFIDF) (model : LogisticRegression)
                            (features : list num) : bool :=
  existsb (fun f => (length (vocabulary vectorizer) <=? fst f)
                    || (length (coef model) <=? fst f))
          (topFeatures features).

(** [analyzeArticle] on the text of an article: load the model,
    vectorize the text, print the table of the top features, predict.
    [None] is the [catch] branch, which shows an error message and no
    result; it is reached through
    [throw new Error('Failed to load model')] and through a TypeError
    of the table.  The other console output reads strings and numbers
    that exist and is left out. *)
Definition analyzeArticle (fetched : option ModelData) (text : jsstring)
  : option Prediction :=
  match loadModel fetched with
  | Some (vectorizer, model) =>
      let features := transform vectorizer text in
      if topFeaturesThrow vectorizer model features then None
      else Some (predict model features)
  | None => None
  end.

(* ================================================================== *)
(** * The specification's vocabulary *)
(* ================================================================== *)

Open Scope R_scope.

(** The score and the probability in the words of the specification. *)
Fixpoint dot (features coefficients : list R) : R :=
  match features, coefficients with
  | f :: fs, c :: cs => f * c + dot fs cs
  | _, _ => 0
  end.

Definition sigmoid (score : R) : R := 1 / (1 + exp (- score)).

(** The sum of squares and the Euclidean norm of a vector. *)
Fixpoint sumSq (fs : list R) : R :=
  match fs with
  | [] => 0
  | f :: rest => f * f + sumSq rest
  end.

Definition norm (fs : list R) : R := sqrt (sumSq fs).

(** The bundle invariant of the specification. *)
Definition validBundle (modelData : ModelData) : Prop :=
  length (md_idf_values modelData) = length (md_vocabulary modelData)
  /\ length (md_coefficients modelData) = length (md_vocabulary modelData)
  /\ md_vocabulary modelData <> [].

Definition mismatchedBundle : ModelData :=
  {| md_vocabulary := [str "fake"];
     md_idf_values := [];
     md_coefficients := [1; 2];
     md_intercept := 0 |}.

Definition emptyBundle : ModelData :=
  {| md_vocabulary := [];
     md_idf_values := [];
     md_coefficients := [];
     md_intercept := 0 |}.

Close Scope R_scope.

(* ================================================================== *)
(** * Invariants used in the proofs *)
(* ================================================================== *)

(** A rule cannot produce the empty string from [word] when its
    replacement is not empty, or its suffix is shorter than the word,
    or its condition refuses the empty stem. *)
Definition ruleSafe (word : jsstring) (r : rule condition) : Prop :=
  let '(suffix, replacement, cond) := r in
  replacement <> []
  \/ length suffix < length word
  \/ (exists c, cond = Some c /\ forall s, c s = true -> s <> []).

(** Every count of [termCounts] is at least one. *)
Definition positiveCounts (m : dict nat) : Prop :=
  forall w c, In (w, c) m -> 0 < c.

Open Scope R_scope.

(** What holds of [(features, sumSquares)] in [transform] after the
    entries [done] of [termCounts] have been visited. *)
Definition rawInv (vocab : list jsstring) (idf : list R)
                  (done : dict nat) (st : list num * num) : Prop :=
  exists fs,
    st = (map Num fs, Num (sumSq fs))
    /\ length fs = length vocab
    /\ (forall j, nth j fs 0 <> 0 ->
                  exists w c, In (w, c) done
                              /\ get (vocabMap (newSimpleTFIDF vocab idf)) w = Some j)
    /\ (forall w c j d,
           In (w, c) done ->
           get (vocabMap (newSimpleTFIDF vocab idf)) w = Some j ->
           nth_error idf j = Some d -> nth j fs 0 = INR c * d).

Close Scope R_scope.

(* ================================================================== *)
(** * The stemmer with its recursion made explicit *)
(* ================================================================== *)

(** A second reading of the stemmer, in which every call of a function
    to itself and every round of the [while] loop uses one unit of
    [fuel] and the result is [None] when the fuel runs out.  Everything
    else is as in [PorterStemmer]. *)
Module Fuelled.

Definition M (A : Type) := nat -> option A.

Definition ret {A : Type} (a : A) : M A := fun _ => Some a.

Definition bind {A B : Type} (m : M A) (k : A -> M B) : M B :=
  fun fuel =>
    match m fuel with
    | Some a => k a fuel
    | None => None
    end.

Notation "x <- m ;; k" := (bind m (fun x => k))
  (at level 61, m at next level, right associativity).

Fixpoint mapM {A B : Type} (f : A -> M B) (l : list A) : M (list B) :=
  match l with
  | [] => ret []
  | x :: rest => y <- f x ;; ys <- mapM f rest ;; ret (y :: ys)
  end.

(** A loop that leaves at the first element satisfying [f]. *)
Fixpoint existsM {A : Type} (f : A -> M bool) (l : list A) : M bool :=
  match l with
  | [] => ret false
  | x :: rest => b <- f x ;; if b then ret true else existsM f rest
  end.

Fixpoint findM {A : Type} (f : A -> M bool) (l : list A) : M (option A) :=
  match l with
  | [] => ret None
  | x :: rest => b <- f x ;; if b then ret (Some x) else findM f rest
  end.

Fixpoint isConsonantF (word : jsstring) (i : nat) (fuel : nat) {struct fuel}
  : option bool :=
  if isVowel (charAt word i) then Some false
  else if isChar (charAt word i) "y" then
         if i =? 0 then Some true
         else match fuel with
              | 0 => None
              | S f => option_map negb (isConsonantF word (i - 1) f)
              end
       else Some true.

Definition cvSequenceF (stem : jsstring) : M jsstring :=
  mapM (fun i => c <- isConsonantF stem i ;;
                 ret (if c then "c"%char else "v"%char))
       (seq 0 (length stem)).

Fixpoint countLoopF (cv : jsstring) (pos : option nat) (count : nat)
                    (fuel : nat) {struct fuel} : option nat :=
  match pos with
  | None => Some count
  | Some p =>
      match fuel with
      | 0 => None
      | S f => countLoopF cv (indexOf cv (str "vc") (p + 1)) (count + 1) f
      end
  end.

Definition measureF (stem : jsstring) : M nat :=
  cv <- cvSequenceF stem ;; countLoopF cv (indexOf cv (str "vc") 0) 0.

Definition hasPositiveMeasureF (stem : jsstring) : M bool :=
  m <- measureF stem ;; ret (0 <? m).

Definition containsVowelF (stem : jsstring) : M bool :=
  existsM (fun i => c <- isConsonantF stem i ;; ret (negb c))
          (seq 0 (length stem)).

Definition endsDoubleConsonantF (word : jsstring) : M bool :=
  if (2 <=? length word)
     && sameChar (charAt word (length word - 1)) (charAt word (length word - 2))
  then isConsonantF word (length word - 1)
  else ret false.

Definition endsCVCF (word : jsstring) : M bool :=
  let len := length word in
  standardCVC <-
    (if 3 <=? len then
       c1 <- isConsonantF word (len - 3) ;;
       if c1 then
         c2 <- isConsonantF word (len - 2) ;;
         if negb c2 then
           c3 <- isConsonantF word (len - 1) ;;
           ret (c3 && negb (isChar (charAt word (len - 1)) "w"
                            || isChar (charAt word (len - 1)) "x"
                            || isChar (charAt word (len - 1)) "y"))
         else ret false
       else ret false
     else ret false) ;;
  nltkCVC <-
    (if len =? 2 then
       c0 <- isConsonantF word 0 ;;
       if negb c0 then isConsonantF word 1 else ret false
     else ret false) ;;
  ret (standardCVC || nltkCVC).

Definition conditionF := jsstring -> M bool.

Definition holdsF (c : option conditionF) (stem : jsstring) : M bool :=
  match c with
  | None => ret true
  | Some f => f stem
  end.

Fixpoint applyRuleListF (word : jsstring) (rules : list (rule conditionF))
  : M jsstring :=
  match rules with
  | [] => ret word
  | (suffix, replacement, c) :: rest =>
      double <- (if eqb suffix (str "*d") then endsDoubleConsonantF word
                 else ret false) ;;
      if double then
        let stem := sliceEnd word 2 in
        h <- holdsF c stem ;; ret (if h then stem ++ replacement else word)
      else if endsWith word suffix then
        let stem := replaceSuffix word suffix [] in
        h <- holdsF c stem ;; ret (if h then stem ++ replacement else word)
      else applyRuleListF word rest
  end.

Definition step1aF (word : jsstring) : M jsstring :=
  if endsWith word (str "ies") && (length word =? 4) then
    ret (replaceSuffix word (str "ies") (str "ie"))
  else applyRuleListF word (step1aRules conditionF).

Definition step1bSuffixF (word : jsstring) : M (option jsstring) :=
  findM (fun suffix =>
           if endsWith word suffix
           then containsVowelF (replaceSuffix word suffix [])
           else ret false)
        [str "ed"; str "ing"].

Definition step1bF (word : jsstring) : M jsstring :=
  if endsWith word (str "ied") then
    if length word =? 4 then ret (replaceSuffix word (str "ied") (str "ie"))
    else ret (replaceSuffix word (str "ied") (str "i"))
  else if endsWith word (str "eed") then
    let stem := replaceSuffix word (str "eed") [] in
    m <- measureF stem ;; ret (if 0 <? m then stem ++ str "ee" else word)
  else
    found <- step1bSuffixF word ;;
    match found with
    | None => ret word
    | Some suffix =>
        let intermediateStem := replaceSuffix word suffix [] in
        applyRuleListF intermediateStem
          (step1bRules intermediateStem
             (fun _ => ret (notLSZ intermediateStem))
             (fun stem =>
                m <- measureF stem ;;
                if m =? 1 then endsCVCF stem else ret false))
    end.

Definition step1cF (word : jsstring) : M jsstring :=
  let nltkCondition := fun stem : jsstring =>
    if 1 <? length stem then isConsonantF stem (length stem - 1)
    else ret false in
  applyRuleListF word (step1cRules nltkCondition).

Definition step2TableF (word : jsstring) : M jsstring :=
  applyRuleListF word
    (step2Rules hasPositiveMeasureF
       (fun _ => hasPositiveMeasureF (sliceEnd word 3))).

Fixpoint step2F (word : jsstring) (fuel : nat) {struct fuel} : option jsstring :=
  if endsWith word (str "alli") then
    match hasPositiveMeasureF (replaceSuffix word (str "alli") []) fuel with
    | None => None
    | Some true =>
        match fuel with
        | 0 => None
        | S f => step2F (replaceSuffix word (str "alli") (str "al")) f
        end
    | Some false => step2TableF word fuel
    end
  else step2TableF word fuel.

Definition step3F (word : jsstring) : M jsstring :=
  applyRuleListF word (step3Rules hasPositiveMeasureF).

Definition step4F (word : jsstring) : M jsstring :=
  applyRuleListF word
    (step4Rules (fun stem => m <- measureF stem ;; ret (1 <? m))
                (fun stem => m <- measureF stem ;;
                             ret ((1 <? m) && endsST stem))).

Definition step5aF (word : jsstring) : M jsstring :=
  if endsWith word (str "e") then
    let stem := replaceSuffix word (str "e") [] in
    m <- measureF stem ;;
    if 1 <? m then ret stem
    else if m =? 1 then
           c <- endsCVCF stem ;; ret (if negb c then stem else word)
         else ret word
  else ret word.

Definition step5bF (word : jsstring) : M jsstring :=
  applyRuleListF word
    (step5bRules (fun _ : jsstring =>
                    m <- measureF (sliceEnd word 1) ;; ret (1 <? m))).

Definition stepsF (w : jsstring) : M jsstring :=
  s <- step1aF w ;; s <- step1bF s ;; s <- step1cF s ;; s <- step2F s ;;
  s <- step3F s ;; s <- step4F s ;; s <- step5aF s ;; step5bF s.

Definition stemRulesF (w : jsstring) : M value :=
  if length w <=? 2 then ret (VString w)
  else s <- stepsF w ;; ret (VString s).

Definition stemF (word : jsstring) : M value :=
  let w := toLowerCase word in
  match getProp pool w with
  | Some v => if truthy v then ret v else stemRulesF w
  | None => stemRulesF w
  end.

(** [m] returns [a] whenever it is given enough fuel. *)
Definition returns {A : Type} (m : M A) (a : A) : Prop :=
  exists n, forall fuel, n <= fuel -> m fuel = Some a.

(** Fuelled and plain conditions of a rule that agree. *)
Definition condRel (cF : option conditionF) (c : option condition) : Prop :=
  match cF, c with
  | None, None => True
  | Some f, Some g => forall stem, returns (f stem) (g stem)
  | _, _ => False
  end.

Definition ruleRel (rF : rule conditionF) (r : rule condition) : Prop :=
  fst (fst rF) = fst (fst r) /\ snd (fst rF) = snd (fst r)
  /\ condRel (snd rF) (snd r).

End Fuelled.

(* ================================================================== *)
(** * displayResult *)
(* ================================================================== *)

(** [a < b]; every comparison with NaN is false. *)
Definition nlt (a b : num) : bool :=
  match a, b with
  | Num x, Num y => if Rlt_dec x y then true else false
  | _, _ => false
  end.

(** What [displayResult] shows: the two early returns, or the status
    class of the result box. *)
Inductive Display :=
| NotArticle        (* "This doesn't appear to be a news article" *)
| Analyzing         (* "Analyzing article..." *)
| Uncertain         (* class [uncertain], "Uncertain" *)
| FakeNews          (* class [fake-news], "Likely Fake News" *)
| RealNews.         (* class [real-news], "Likely Reliable" *)

(** The branches of [displayResult]; [None] is a [null] prediction.
    The percentages printed with [toFixed] are not part of the model. *)
Definition displayResult (isArticle : bool) (result : option Prediction)
  : Display :=
  if negb isArticle then NotArticle
  else match result with
       | None => Analyzing
       | Some p =>
           let isFake := prediction p =? 1 in
           if nlt (confidence p) (Num (6/10)) then Uncertain
           else if isFake then FakeNews
           else RealNews
       end.

(* ================================================================== *)
(** * TF-IDF in closed form *)
(* ================================================================== *)

(** How often [t] occurs among the tokens. *)
Definition occurrences (t : jsstring) (toks : list jsstring) : nat :=
  length (filter (eqb t) toks).

(** The count a [termCounts] map holds for [t], zero without entry. *)
Definition countOf (m : dict nat) (t : jsstring) : nat :=
  match get m t with
  | Some n => n
  | None => 0
  end.

Open Scope R_scope.

(** Raw count times IDF weight, position by position. *)
Definition tfidf (vocab : list jsstring) (idf : list R) (toks : list jsstring)
  : list R :=
  map (fun wd => INR (occurrences (fst wd) toks) * snd wd) (combine vocab idf).

(** Division by the Euclidean norm when it is not zero. *)
Definition l2normalize (raw : list R) : list R :=
  if Rlt_dec 0 (sumSq raw) then map (fun f => f / norm raw) raw else raw.

Close Scope R_scope.

(* ================================================================== *)
(** * The measure in closed form *)
(* ================================================================== *)

(** The number of positions of a c/v sequence at which a ['v'] is
    followed by a ['c']. *)
Fixpoint countVC (cv : jsstring) : nat :=
  match cv with
  | a :: rest =>
      (if startsWith cv (str "vc") then 1 else 0) + countVC rest
  | [] => 0
  end.

(* ================================================================== *)
(** * Words *)
(* ================================================================== *)

(** A string of the letters a to z only. *)
Definition letters (s : jsstring) : Prop := forallb isLowerLetter s = true.

(** A string without white space. *)
Definition solid (s : jsstring) : Prop :=
  forallb (fun c => negb (isWhiteSpace c)) s = true.

(** A to Z become a to z, every other character stays. *)
Definition lowerAsciiLetter (c : ascii) : ascii :=
  if isAsciiLetter c then lowerChar c else c.

(** The words [stemming] hands to the stopword filter. *)
Definition words (content : jsstring) : list jsstring :=
  splitWords (toLowerCase (removeNonAlpha content)).

(* ================================================================== *)
(** * The score recomputed by analyzeArticle *)
(* ================================================================== *)

(** The loop of [analyzeArticle] that recomputes the score for the
    console, from index [i] on, on the pair
    [(totalContribution, rawScore)]: only features above zero count. *)
Fixpoint debugLoop (model : LogisticRegression) (features : list num)
                   (i : nat) (st : num * num) : num * num :=
  match features with
  | [] => st
  | f :: rest =>
      debugLoop model rest (S i)
        (if ngt f (Num 0) then
           let contrib := nmul f (readNum (coef model) i) in
           (nadd (fst st) contrib, nadd (snd st) contrib)
         else st)
  end.

Definition debugScore (model : LogisticRegression) (features : list num)
  : num * num :=
  debugLoop model features 0 (Num 0, Num (intercept model)).

(* ================================================================== *)
(** * Facts about strings and dictionaries *)
(* ================================================================== *)

Unset Implicit Arguments.

Lemma eqb_eq (a b : jsstring) : eqb a b = true <-> a = b.
Proof.
  revert b; induction a as [|x a IH]; intros [|y b]; simpl;
    try (split; [discriminate | discriminate]); try tauto.
  rewrite andb_true_iff, Ascii.eqb_eq, IH.
  split; [intros [-> ->]; reflexivity | intros H; inversion H; auto].
Qed.

Lemma eqb_refl (a : jsstring) : eqb a a = true.
Proof. apply eqb_eq; reflexivity. Qed.

Lemma eqb_neq (a b : jsstring) : eqb a b = false <-> a <> b.
Proof.
  rewrite <- eqb_eq. destruct (eqb a b); split; congruence.
Qed.

Lemma get_In (V : Type) (m : dict V) k v :
  get m k = Some v -> In (k, v) m.
Proof.
  induction m as [|[k' v'] m IH]; simpl; [discriminate|].
  destruct (eqb k' k) eqn:E.
  - apply eqb_eq in E. intros [= ->]. left; congruence.
  - auto.
Qed.

Lemma lowerChar_idempotent (c : ascii) : lowerChar (lowerChar c) = lowerChar c.
Proof.
  destruct c as [[] [] [] [] [] [] [] []]; reflexivity.
Qed.

Lemma toLowerCase_idempotent (s : jsstring) :
  toLowerCase (toLowerCase s) = toLowerCase s.
Proof.
  unfold toLowerCase. rewrite map_map.
  apply map_ext. intros c; apply lowerChar_idempotent.
Qed.

Lemma lowerChar_lower (c : ascii) : isLowerLetter c = true -> lowerChar c = c.
Proof.
  destruct c as [[] [] [] [] [] [] [] []]; intros H; try reflexivity;
    discriminate H.
Qed.

Lemma toLowerCase_lower (s : jsstring) :
  forallb isLowerLetter s = true -> toLowerCase s = s.
Proof.
  induction s as [|c s IH]; simpl; [reflexivity|].
  rewrite andb_true_iff. intros [Hc Hs].
  rewrite (lowerChar_lower _ Hc), IH by assumption. reflexivity.
Qed.

Lemma toLowerCase_length (s : jsstring) : length (toLowerCase s) = length s.
Proof. apply length_map. Qed.

(* ================================================================== *)
(** * The entry of [stem]: pool, short words *)
(* ================================================================== *)

Lemma stem_unfold (word : jsstring) :
  stem word =
  match getProp pool (toLowerCase word) with
  | Some v => if truthy v then v else stemRules (toLowerCase word)
  | None => stemRules (toLowerCase word)
  end.
Proof. reflexivity. Qed.

(** The pool lookup decides alone whenever it finds a truthy value. *)
Lemma stem_pool_hit (word : jsstring) (v : value) :
  getProp pool (toLowerCase word) = Some v -> truthy v = true ->
  stem word = v.
Proof.
  intros H T. rewrite stem_unfold, H, T. reflexivity.
Qed.

(** Every key [this.pool[w]] can find, own or inherited, has at least
    three characters. *)
Lemma getProp_pool_long (w : jsstring) (v : value) :
  getProp pool w = Some v -> 3 <= length w.
Proof.
  unfold getProp.
  destruct (get pool w) as [s|] eqn:E.
  - intros _. apply get_In in E.
    assert (A : Forall (fun kv : jsstring * jsstring => 3 <= length (fst kv)) pool).
    { repeat constructor; simpl; lia. }
    rewrite Forall_forall in A. apply (A _ E).
  - intros H. apply get_In in H.
    assert (A : Forall (fun kv : jsstring * value => 3 <= length (fst kv))
                       objectPrototype).
    { repeat constructor; simpl; lia. }
    rewrite Forall_forall in A. apply (A _ H).
Qed.

Lemma stem_short_any (word : jsstring) :
  length word <= 2 -> stem word = VString (toLowerCase word).
Proof.
  intros L. rewrite stem_unfold.
  destruct (getProp pool (toLowerCase word)) as [v|] eqn:E.
  - apply getProp_pool_long in E. rewrite toLowerCase_length in E. lia.
  - unfold stemRules. rewrite toLowerCase_length.
    destruct (Nat.leb_spec (length word) 2); [reflexivity | lia].
Qed.

(** C6.  A lower-case alphabetic word of at most two characters is its
    own stem: the pool has no such key and the length test returns the
    word before any step runs. *)
Theorem stem_short_unchanged (w : jsstring) :
  forallb isLowerLetter w = true -> length w <= 2 -> stem w = VString w.
Proof.
  intros Hl Hn. rewrite (stem_short_any _ Hn).
  rewrite (toLowerCase_lower _ Hl). reflexivity.
Qed.

Lemma stem_short_unchanged_witness : stem (str "ox") = VString (str "ox").
Proof.
  apply (stem_short_unchanged (str "ox")); [reflexivity | simpl; lia].
Defined.

(** The inverted table as the constructor leaves it. *)
Lemma pool_value :
  pool =
  [ (str "sky", str "sky"); (str "skies", str "sky");
    (str "dying", str "die"); (str "lying", str "lie");
    (str "tying", str "tie"); (str "news", str "news");
    (str "innings", str "inning"); (str "inning", str "inning");
    (str "outings", str "outing"); (str "outing", str "outing");
    (str "cannings", str "canning"); (str "canning", str "canning");
    (str "howe", str "howe"); (str "proceed", str "proceed");
    (str "exceed", str "exceed"); (str "succeed", str "succeed") ].
Proof. reflexivity. Qed.

(** C7.  Every form of the irregular table is a key of the inverted
    pool and [stem] returns the stem it is listed under, whatever the
    steps would do; a key of the pool is answered by the lookup alone.
    So "dying" gives "die" and "news" gives "news", where the steps
    would have given "dy" and "new". *)
Theorem stem_irregular :
  (forall st forms form,
      In (st, forms) irregularForms -> In form forms ->
      get pool form = Some st /\ stem form = VString st)
  /\ (forall w st, get pool w = Some st -> stem w = VString st)
  /\ stem (str "dying") = VString (str "die")
  /\ stem (str "news") = VString (str "news")
  /\ stemRules (str "dying") = VString (str "dy")
  /\ stemRules (str "news") = VString (str "new").
Proof.
  split; [|split; [|repeat split; vm_compute; reflexivity]].
  - intros st forms form Hin Hform.
    unfold irregularForms in Hin. simpl in Hin.
    repeat (destruct Hin as [Hin|Hin];
            [ inversion Hin; subst; clear Hin; simpl in Hform;
              repeat (destruct Hform as [Hform|Hform];
                      [subst; split; reflexivity|]);
              contradiction | ]).
    contradiction.
  - intros w st H. apply get_In in H.
    rewrite pool_value in H. simpl in H.
    repeat (destruct H as [H|H]; [inversion H; subst; reflexivity|]).
    contradiction.
Qed.

(** C10.  [stem] lower-cases its argument first, and lower-casing twice
    is lower-casing once. *)
Theorem stem_case_insensitive (w : jsstring) :
  stem w = stem (toLowerCase w).
Proof.
  rewrite !stem_unfold. rewrite toLowerCase_idempotent. reflexivity.
Qed.

(* ================================================================== *)
(** * Suffixes *)
(* ================================================================== *)

Lemma startsWith_iff (s p : jsstring) :
  startsWith s p = true <-> exists r, s = p ++ r.
Proof.
  revert s; induction p as [|x p IH]; intros s; simpl.
  - split; [intros _; exists s; reflexivity | reflexivity].
  - destruct s as [|y s].
    + split; [discriminate | intros [r H]; discriminate H].
    + rewrite andb_true_iff, Ascii.eqb_eq, IH. split.
      * intros [-> [r ->]]. exists r; reflexivity.
      * intros [r H]. inversion H; subst. split; [reflexivity | exists r; reflexivity].
Qed.

Lemma endsWith_iff (s suffix : jsstring) :
  endsWith s suffix = true <-> exists p, s = p ++ suffix.
Proof.
  unfold endsWith. rewrite andb_true_iff, Nat.leb_le, eqb_eq. split.
  - intros [L E]. exists (firstn (length s - length suffix) s).
    pose proof (firstn_skipn (length s - length suffix) s) as F.
    rewrite E in F. symmetry; exact F.
  - intros [p ->]. rewrite length_app. split; [lia|].
    replace (length p + length suffix - length suffix) with (length p + 0) by lia.
    rewrite skipn_app, Nat.add_0_r, skipn_all.
    replace (length p - length p) with 0 by lia. reflexivity.
Qed.

(** [endsWith] read from the right end. *)
Lemma endsWith_rev (s suffix : jsstring) :
  endsWith s suffix = startsWith (rev s) (rev suffix).
Proof.
  apply eq_iff_eq_true. rewrite endsWith_iff, startsWith_iff. split.
  - intros [p ->]. exists (rev p). apply rev_app_distr.
  - intros [r H]. exists (rev r).
    rewrite <- (rev_involutive s), H, rev_app_distr, rev_involutive.
    reflexivity.
Qed.

Lemma endsWith_app (p suffix : jsstring) : endsWith (p ++ suffix) suffix = true.
Proof. apply endsWith_iff. exists p; reflexivity. Qed.

Lemma sliceEnd_app (p suffix : jsstring) :
  suffix <> [] -> sliceEnd (p ++ suffix) (length suffix) = p.
Proof.
  intros N. unfold sliceEnd.
  destruct (Nat.eqb_spec (length suffix) 0) as [E|_].
  - destruct suffix; [congruence | discriminate E].
  - rewrite length_app.
    replace (length p + length suffix - length suffix) with (length p + 0) by lia.
    rewrite firstn_app_2. simpl. apply app_nil_r.
Qed.

Lemma replaceSuffix_app (p suffix replacement : jsstring) :
  suffix <> [] -> replaceSuffix (p ++ suffix) suffix replacement = p ++ replacement.
Proof.
  intros N. unfold replaceSuffix. rewrite endsWith_app. simpl.
  destruct (eqb suffix []) eqn:E.
  - apply eqb_eq in E. congruence.
  - rewrite sliceEnd_app by assumption. reflexivity.
Qed.

(** A rule whose suffix the word does not end with is passed over. *)
Lemma applyRuleList_skip word suffix replacement condition rest :
  eqb suffix (str "*d") = false -> endsWith word suffix = false ->
  applyRuleList word ((suffix, replacement, condition) :: rest)
  = applyRuleList word rest.
Proof. intros H1 H2. cbn [applyRuleList]. rewrite H1, H2. reflexivity. Qed.

(** The first rule whose suffix matches commits. *)
Lemma applyRuleList_hit word suffix replacement condition rest :
  eqb suffix (str "*d") = false -> endsWith word suffix = true ->
  applyRuleList word ((suffix, replacement, condition) :: rest)
  = if holds condition (replaceSuffix word suffix [])
    then replaceSuffix word suffix [] ++ replacement else word.
Proof. intros H1 H2. cbn [applyRuleList]. rewrite H1, H2. reflexivity. Qed.

(** A suffix that differs from the end of [tail] is not a suffix of
    [p ++ tail]; on literals the premise holds by computation. *)
Lemma endsWith_app_false (p tail suffix : jsstring) :
  (forall q, startsWith (rev tail ++ q) (rev suffix) = false) ->
  endsWith (p ++ tail) suffix = false.
Proof.
  intros H. rewrite endsWith_rev, rev_app_distr. apply H.
Qed.

(* ================================================================== *)
(** * The recursion of [step2] *)
(* ================================================================== *)

Lemma replaceSuffix_length (word suffix replacement : jsstring) :
  endsWith word suffix = true -> suffix <> [] ->
  length (replaceSuffix word suffix replacement)
  = length word - length suffix + length replacement.
Proof.
  intros E N. apply endsWith_iff in E. destruct E as [p ->].
  rewrite replaceSuffix_app by assumption.
  rewrite !length_app. lia.
Qed.

(** The word [step2] passes to itself is two characters shorter. *)
Lemma step2_call_shorter (word : jsstring) :
  endsWith word (str "alli") = true ->
  length (replaceSuffix word (str "alli") (str "al")) + 2 = length word.
Proof.
  intros E. rewrite replaceSuffix_length by (assumption || discriminate).
  apply endsWith_iff in E. destruct E as [p ->].
  rewrite length_app. simpl. lia.
Qed.

Lemma endsWith_length (word suffix : jsstring) :
  endsWith word suffix = true -> length suffix <= length word.
Proof.
  unfold endsWith. rewrite andb_true_iff, Nat.leb_le. tauto.
Qed.

Lemma step2Rec_0 (word : jsstring) : step2Rec 0 word = step2Table word.
Proof. reflexivity. Qed.

Lemma step2Rec_S (f : nat) (word : jsstring) :
  step2Rec (S f) word =
  if endsWith word (str "alli")
     && hasPositiveMeasure (replaceSuffix word (str "alli") [])
  then step2Rec f (replaceSuffix word (str "alli") (str "al"))
  else step2Table word.
Proof. reflexivity. Qed.

Lemma step2Rec_short (f : nat) (word : jsstring) :
  endsWith word (str "alli") = false -> step2Rec f word = step2Table word.
Proof.
  intros E. destruct f; [reflexivity|].
  rewrite step2Rec_S, E. cbn [andb]. reflexivity.
Qed.

Lemma step2Rec_fuel (n m : nat) (word : jsstring) :
  length word <= n -> length word <= m -> step2Rec n word = step2Rec m word.
Proof.
  revert m word. induction n as [|n IH]; intros m word Hn Hm.
  - destruct word; [|simpl in Hn; lia].
    rewrite !step2Rec_short by reflexivity. reflexivity.
  - destruct (endsWith word (str "alli")) eqn:E.
    + pose proof (endsWith_length _ _ E) as L. simpl in L.
      destruct m as [|m]; [lia|].
      rewrite !step2Rec_S, E, andb_true_l.
      destruct (hasPositiveMeasure _); [|reflexivity].
      pose proof (step2_call_shorter _ E). apply IH; lia.
    + rewrite !step2Rec_short by exact E. reflexivity.
Qed.

(** [step2] as the source writes it. *)
Lemma step2_eq (word : jsstring) :
  step2 word =
  if endsWith word (str "alli")
     && hasPositiveMeasure (replaceSuffix word (str "alli") [])
  then step2 (replaceSuffix word (str "alli") (str "al"))
  else step2Table word.
Proof.
  unfold step2. destruct (endsWith word (str "alli")) eqn:E.
  - pose proof (endsWith_length _ _ E) as L. simpl in L.
    destruct (length word) as [|n] eqn:Ln; [lia|].
    rewrite step2Rec_S, E, andb_true_l.
    destruct (hasPositiveMeasure _); [|reflexivity].
    pose proof (step2_call_shorter _ E). apply step2Rec_fuel; lia.
  - rewrite step2Rec_short by exact E. cbn [andb]. reflexivity.
Qed.

Ltac skip_rule :=
  rewrite applyRuleList_skip;
  [ | reflexivity | apply endsWith_app_false; intros; reflexivity ].

(** C8.  On a word ending in "logi" the rule of [step2] rewrites the
    ending to "log" exactly when the measure of the word without its
    last three characters, which keeps the "l", is positive.  The
    measure of the word without "logi" does not decide: "geologi" is
    rewritten although "geo" has measure zero. *)
Theorem step2_logi (s : jsstring) :
  sliceEnd (s ++ str "logi") 3 = s ++ str "l"
  /\ step2 (s ++ str "logi")
     = (if 0 <? measure (s ++ str "l") then s ++ str "log"
        else s ++ str "logi")
  /\ measure (str "geo") = 0
  /\ step2 (str "geologi") = str "geolog".
Proof.
  assert (SL : sliceEnd (s ++ str "logi") 3 = s ++ str "l").
  { change (str "logi") with (str "l" ++ str "ogi").
    rewrite app_assoc.
    apply (sliceEnd_app (s ++ str "l") (str "ogi")). discriminate. }
  split; [exact SL|]. split; [|split; reflexivity].
  rewrite step2_eq.
  rewrite (endsWith_app_false s (str "logi") (str "alli"))
    by (intros; reflexivity).
  cbn [andb]. unfold step2Table, step2Rules.
  do 21 skip_rule.
  rewrite applyRuleList_hit; [ | reflexivity | apply endsWith_app ].
  cbn [holds]. rewrite SL. unfold hasPositiveMeasure.
  rewrite replaceSuffix_app by discriminate.
  rewrite app_nil_r. reflexivity.
Qed.

(* ================================================================== *)
(** * The stemmer never returns the empty string *)
(* ================================================================== *)

Lemma app_nonempty_r (a b : jsstring) : b <> [] -> a ++ b <> [].
Proof. destruct a, b; simpl; congruence. Qed.

Lemma app_nonempty_l (a b : jsstring) : a <> [] -> a ++ b <> [].
Proof. destruct a; simpl; congruence. Qed.

Lemma sliceEnd_nonempty (word : jsstring) (k : nat) :
  0 < k -> k < length word -> sliceEnd word k <> [].
Proof.
  intros K L. unfold sliceEnd.
  destruct (Nat.eqb_spec k 0); [lia|].
  intros E. apply (f_equal (@length ascii)) in E.
  rewrite length_firstn in E. simpl in E. lia.
Qed.

Lemma replaceSuffix_nil_nonempty (word suffix : jsstring) :
  word <> [] -> length suffix < length word ->
  replaceSuffix word suffix [] <> [].
Proof.
  intros W L. unfold replaceSuffix.
  destruct (endsWith word suffix); [|exact W]. cbn [negb].
  destruct (eqb suffix []) eqn:E.
  - rewrite app_nil_r. exact W.
  - rewrite app_nil_r. apply sliceEnd_nonempty; [|exact L].
    apply eqb_neq in E. destruct suffix; [congruence | simpl; lia].
Qed.

Lemma applyRuleList_nonempty (word : jsstring) (rules : list (rule condition)) :
  word <> [] -> Forall (ruleSafe word) rules ->
  applyRuleList word rules <> [].
Proof.
  intros W. induction rules as [|[[suffix replacement] condition] rest IH];
    intros F; cbn [applyRuleList]; [exact W|].
  inversion F as [|? ? Safe F']; subst.
  destruct (eqb suffix (str "*d")) eqn:Star; cbn [andb].
  - apply eqb_eq in Star.
    destruct (endsDoubleConsonant word) eqn:D.
    + destruct (holds condition (sliceEnd word 2)) eqn:H; [|exact W].
      destruct Safe as [R|[L|[c [-> C]]]].
      * apply app_nonempty_r, R.
      * apply app_nonempty_l, sliceEnd_nonempty; [lia|].
        subst suffix. exact L.
      * apply app_nonempty_l, (C _ H).
    + destruct (endsWith word suffix); [|apply IH; exact F'].
      destruct (holds condition (replaceSuffix word suffix [])) eqn:H;
        [|exact W].
      destruct Safe as [R|[L|[c [-> C]]]].
      * apply app_nonempty_r, R.
      * apply app_nonempty_l, replaceSuffix_nil_nonempty; assumption.
      * apply app_nonempty_l, (C _ H).
  - destruct (endsWith word suffix); [|apply IH; exact F'].
    destruct (holds condition (replaceSuffix word suffix [])) eqn:H;
      [|exact W].
    destruct Safe as [R|[L|[c [-> C]]]].
    + apply app_nonempty_r, R.
    + apply app_nonempty_l, replaceSuffix_nil_nonempty; assumption.
    + apply app_nonempty_l, (C _ H).
Qed.

(** Discharges [ruleSafe] for a rule with a literal replacement or a
    condition that computes to [false] on the empty stem. *)
Ltac rule_safe :=
  first
    [ left; discriminate
    | right; right; eexists; split;
      [ reflexivity | intros s H E; subst s; discriminate H ] ].

Ltac rules_safe :=
  repeat (apply Forall_cons; [ rule_safe | ]); apply Forall_nil.

Lemma replaceSuffix_nonempty (word suffix replacement : jsstring) :
  word <> [] -> replacement <> [] ->
  replaceSuffix word suffix replacement <> [].
Proof.
  intros W R. unfold replaceSuffix.
  destruct (endsWith word suffix); [|exact W]. cbn [negb].
  destruct (eqb suffix []); apply app_nonempty_r, R.
Qed.

Lemma step1a_nonempty (word : jsstring) :
  3 <= length word -> step1a word <> [].
Proof.
  intros L. assert (W : word <> []) by (destruct word; simpl in L; [lia|congruence]).
  unfold step1a.
  destruct (endsWith word (str "ies") && (length word =? 4)).
  - apply replaceSuffix_nonempty; [exact W | discriminate].
  - apply applyRuleList_nonempty; [exact W|].
    repeat (apply Forall_cons; [ first [ rule_safe | right; left; simpl; lia ] | ]).
    apply Forall_nil.
Qed.

Lemma containsVowel_nonempty (s : jsstring) : containsVowel s = true -> s <> [].
Proof. intros H E; subst; discriminate H. Qed.

Lemma lastCharString_nonempty (s : jsstring) : lastCharString s <> [].
Proof.
  unfold lastCharString. destruct (lastChar s); discriminate.
Qed.

Lemma step1b_nonempty (word : jsstring) : word <> [] -> step1b word <> [].
Proof.
  intros W. unfold step1b.
  destruct (endsWith word (str "ied")).
  { destruct (length word =? 4);
      (apply replaceSuffix_nonempty; [exact W | discriminate]). }
  destruct (endsWith word (str "eed")).
  { destruct (0 <? measure _); [|exact W].
    apply app_nonempty_r; discriminate. }
  destruct (step1bSuffix word) as [suffix|] eqn:F; [|exact W].
  apply find_some in F. destruct F as [_ F].
  apply andb_true_iff in F. destruct F as [_ F].
  apply applyRuleList_nonempty; [exact (containsVowel_nonempty _ F)|].
  repeat (apply Forall_cons;
          [ first [ rule_safe | left; apply lastCharString_nonempty ] | ]).
  apply Forall_nil.
Qed.

Lemma step1c_nonempty (word : jsstring) : word <> [] -> step1c word <> [].
Proof.
  intros W. unfold step1c. apply applyRuleList_nonempty; [exact W|]. rules_safe.
Qed.

Lemma step2_nonempty (word : jsstring) : word <> [] -> step2 word <> [].
Proof.
  unfold step2. generalize (length word) as n. intros n; revert word.
  induction n as [|n IH]; intros word W; cbn [step2Rec].
  - unfold step2Table. apply applyRuleList_nonempty; [exact W|]. rules_safe.
  - destruct (endsWith word (str "alli") && _).
    + apply IH. apply replaceSuffix_nonempty; [exact W | discriminate].
    + unfold step2Table. apply applyRuleList_nonempty; [exact W|]. rules_safe.
Qed.

Lemma step3_nonempty (word : jsstring) : word <> [] -> step3 word <> [].
Proof.
  intros W. unfold step3. apply applyRuleList_nonempty; [exact W|]. rules_safe.
Qed.

Lemma step4_nonempty (word : jsstring) : word <> [] -> step4 word <> [].
Proof.
  intros W. unfold step4. apply applyRuleList_nonempty; [exact W|]. rules_safe.
Qed.

Lemma step5a_nonempty (word : jsstring) : word <> [] -> step5a word <> [].
Proof.
  intros W. unfold step5a.
  destruct (endsWith word (str "e")); [|exact W]. cbv zeta.
  destruct (1 <? measure _) eqn:M1.
  - intros E; rewrite E in M1; discriminate M1.
  - destruct ((measure _ =? 1) && _) eqn:M2; [|exact W].
    intros E; rewrite E in M2; discriminate M2.
Qed.

Lemma step5b_nonempty (word : jsstring) : word <> [] -> step5b word <> [].
Proof.
  intros W. unfold step5b. apply applyRuleList_nonempty; [exact W|]. rules_safe.
Qed.

Lemma steps_nonempty (w : jsstring) : 3 <= length w -> steps w <> [].
Proof.
  intros L. unfold steps.
  apply step5b_nonempty, step5a_nonempty, step4_nonempty, step3_nonempty,
    step2_nonempty, step1c_nonempty, step1b_nonempty, step1a_nonempty, L.
Qed.

Lemma stem_nonempty (word : jsstring) : word <> [] -> stem word <> VString [].
Proof.
  intros W. rewrite stem_unfold.
  assert (R : stemRules (toLowerCase word) <> VString []).
  { unfold stemRules.
    destruct (Nat.leb_spec (length (toLowerCase word)) 2) as [L|L].
    - intros [= E]. destruct word; [congruence | discriminate E].
    - intros [= E]. apply (steps_nonempty (toLowerCase word)); [lia | exact E]. }
  destruct (getProp pool (toLowerCase word)) as [v|]; [|exact R].
  destruct (truthy v) eqn:T; [|exact R].
  intros E; subst v; discriminate T.
Qed.

(* ================================================================== *)
(** * [stemming] *)
(* ================================================================== *)

Lemma splitWords_nonempty (s t : jsstring) : In t (splitWords s) -> t <> [].
Proof.
  unfold splitWords. rewrite filter_In. intros [_ H] E; subst; discriminate H.
Qed.

(** A word may lose its ending and become a stopword: "hows" is not a
    stopword, its stem "how" is one.  So the statement that no token of
    [stemming] is a stopword does not hold. *)
Lemma stemming_emits_stopword :
  ~ (forall content token,
        In (VString token) (stemmingWords content) ->
        isStopword token = false).
Proof.
  intros H. specialize (H (str "hows") (str "how")).
  assert (I : In (VString (str "how")) (stemmingWords (str "hows")))
    by (vm_compute; left; reflexivity).
  specialize (H I). discriminate H.
Qed.

(** C1, as the code has it.  Stopwords are removed before stemming, not
    after: every element of the array that [stemming] joins is the
    [stem] of a non-empty word of the text that is not a stopword, and
    none is the empty string; the tokens [transform] reads back from the
    joined string are not empty either. *)
Theorem stemming_tokens (content : jsstring) :
  (forall v, In v (stemmingWords content) ->
     v <> VString []
     /\ exists word,
          In word (splitWords (toLowerCase (removeNonAlpha content)))
          /\ word <> [] /\ isStopword word = false /\ v = stem word)
  /\ (forall t, In t (tokens content) -> t <> []).
Proof.
  split.
  - intros v H. unfold stemmingWords in H.
    apply in_map_iff in H. destruct H as [word [<- H]].
    apply filter_In in H. destruct H as [H S].
    pose proof (splitWords_nonempty _ _ H) as W.
    split; [apply stem_nonempty, W|].
    exists word. repeat split; try assumption.
    destruct (isStopword word); [discriminate S | reflexivity].
  - intros t. apply splitWords_nonempty.
Qed.

(* ================================================================== *)
(** * [predict] *)
(* ================================================================== *)

Open Scope R_scope.

Lemma readNum_app (pre : list R) (c : R) (cs : list R) :
  readNum (pre ++ c :: cs) (length pre) = Num c.
Proof.
  unfold readNum. rewrite nth_error_app2 by lia.
  rewrite Nat.sub_diag. reflexivity.
Qed.

Lemma scoreLoop_dot (this : LogisticRegression) (fs cs pre : list R) (s : R) :
  coef this = pre ++ cs -> length fs = length cs ->
  scoreLoop this (map Num fs) (length pre) (Num s) = Num (s + dot fs cs).
Proof.
  revert cs pre s. induction fs as [|f fs IH]; intros cs pre s C L.
  - simpl. f_equal. destruct cs; simpl; lra.
  - destruct cs as [|c cs]; [discriminate L|].
    cbn [map scoreLoop]. rewrite C, readNum_app. cbn.
    replace (S (length pre)) with (length (pre ++ [c]))
      by (rewrite length_app; simpl; lia).
    rewrite IH with (cs := cs).
    + f_equal. lra.
    + rewrite C, <- app_assoc. reflexivity.
    + simpl in L. lia.
Qed.

Lemma ngt_true (x y : R) : x > y -> ngt (Num x) (Num y) = true.
Proof. intros H. simpl. destruct (Rgt_dec x y); [reflexivity | contradiction]. Qed.

Lemma ngt_false (x y : R) : ~ x > y -> ngt (Num x) (Num y) = false.
Proof. intros H. simpl. destruct (Rgt_dec x y); [contradiction | reflexivity]. Qed.

Lemma sigmoid_denominator (x : R) : 0 < 1 + exp (- x).
Proof. pose proof (exp_pos (- x)). lra. Qed.

(** C4.  On a feature vector as long as the coefficients, [predict]
    returns the probability [1 / (1 + exp (- (intercept + sum of
    features[i] * coefficients[i])))], the label 1 exactly when that
    probability is above 0.5 and 0 otherwise, and as confidence the
    larger of the probability and its complement. *)
Theorem predict_formula (this : LogisticRegression) (features : list R) :
  length features = length (coef this) ->
  let probability := sigmoid (intercept this + dot features (coef this)) in
  let result := predict this (map Num features) in
  fakeProbability result = Num probability
  /\ (probability > 1/2 -> prediction result = 1%nat)
  /\ (~ probability > 1/2 -> prediction result = 0%nat)
  /\ confidence result = Num (Rmax probability (1 - probability))
  /\ realProbability result = Num (1 - probability).
Proof.
  intros L probability result.
  assert (P : ndiv (Num 1)
                (nadd (Num 1)
                   (nexp (nneg (scoreLoop this (map Num features) 0
                                  (Num (intercept this))))))
              = Num probability).
  { pose proof (scoreLoop_dot this features (coef this) [] (intercept this)
                  eq_refl L) as Q.
    cbn [length] in Q. rewrite Q. reflexivity. }
  subst result. unfold predict. cbv zeta. rewrite P. cbn [fakeProbability
    prediction confidence realProbability].
  split; [reflexivity|]. split; [|split; [|split; [|reflexivity]]].
  - intros G. rewrite (ngt_true _ _ G). reflexivity.
  - intros G. rewrite (ngt_false _ _ G). reflexivity.
  - destruct (Rgt_dec probability (1/2)) as [G|G].
    + rewrite (ngt_true _ _ G), Rmax_left by lra. reflexivity.
    + rewrite (ngt_false _ _ G), Rmax_right by lra. reflexivity.
Qed.

Lemma predict_formula_witness :
  fakeProbability
    (predict {| coef := [1/2; -2]; intercept := 1 |} (map Num [3; 4]))
  = Num (sigmoid (1 + dot [3; 4] [1/2; -2])).
Proof.
  apply (predict_formula {| coef := [1/2; -2]; intercept := 1 |} [3; 4]).
  reflexivity.
Defined.

(* ================================================================== *)
(** * Empty input *)
(* ================================================================== *)

Lemma scoreLoop_zero (this : LogisticRegression) (n i : nat) (s : R) :
  (i + n <= length (coef this))%nat ->
  scoreLoop this (repeat (Num 0) n) i (Num s) = Num s.
Proof.
  revert i s. induction n as [|n IH]; intros i s L; [reflexivity|].
  cbn [repeat scoreLoop]. unfold readNum.
  destruct (nth_error (coef this) i) as [c|] eqn:E.
  - cbn. replace (s + 0 * c) with s by lra. apply IH. lia.
  - apply nth_error_None in E. lia.
Qed.

Lemma tokens_of_no_words (text : jsstring) :
  stemmingWords text = [] -> tokens text = [].
Proof.
  intros H. unfold tokens, stemming. rewrite H. reflexivity.
Qed.

Lemma transform_no_tokens (this : SimpleTFIDF) (text : jsstring) :
  tokens text = [] ->
  transform this text = repeat (Num 0) (length (vocabulary this)).
Proof.
  intros H. unfold transform, rawVector. rewrite H. cbn [termCounts fold_left].
  rewrite ngt_false by lra. reflexivity.
Qed.

(** C3.  When [stemming] leaves no word, [transform] returns the zero
    vector of the length of the vocabulary, and [predict] on it, with
    one coefficient for every position, returns the probability
    [sigmoid intercept]; the empty string is such an input. *)
Theorem empty_input (vectorizer : SimpleTFIDF) (model : LogisticRegression)
                    (text : jsstring) :
  stemmingWords text = [] ->
  (length (vocabulary vectorizer) <= length (coef model))%nat ->
  transform vectorizer text = repeat (Num 0) (length (vocabulary vectorizer))
  /\ fakeProbability (predict model (transform vectorizer text))
     = Num (sigmoid (intercept model))
  /\ stemmingWords [] = [].
Proof.
  intros H L.
  pose proof (transform_no_tokens vectorizer text (tokens_of_no_words text H)) as T.
  split; [exact T|]. split; [|reflexivity].
  rewrite T. unfold predict. cbv zeta. cbn [fakeProbability].
  rewrite scoreLoop_zero by (simpl; lia). reflexivity.
Qed.

Lemma empty_input_witness :
  transform (newSimpleTFIDF [str "fake"; str "report"] [2; 1]) []
  = repeat (Num 0) 2
  /\ fakeProbability
       (predict {| coef := [1/2; -2]; intercept := 1 |}
          (transform (newSimpleTFIDF [str "fake"; str "report"] [2; 1]) []))
     = Num (sigmoid 1)
  /\ stemmingWords [] = [].
Proof.
  apply (empty_input (newSimpleTFIDF [str "fake"; str "report"] [2; 1])
           {| coef := [1/2; -2]; intercept := 1 |} []).
  - reflexivity.
  - simpl; lia.
Defined.

(* ================================================================== *)
(** * Dictionaries: lookups after updates *)
(* ================================================================== *)

Close Scope R_scope.

Section DictFacts.
Variable V : Type.
Implicit Types (m : dict V) (k : jsstring) (v : V).

Lemma get_set_same m k v : get (set m k v) k = Some v.
Proof.
  induction m as [|[k' v'] m IH]; simpl.
  - rewrite eqb_refl. reflexivity.
  - destruct (eqb k' k) eqn:E; simpl; rewrite E; auto.
Qed.

Lemma get_set_other m k k' v : k <> k' -> get (set m k v) k' = get m k'.
Proof.
  intros N. induction m as [|[k0 v0] m IH]; simpl.
  - apply eqb_neq in N. rewrite N. reflexivity.
  - destruct (eqb k0 k) eqn:E; simpl.
    + apply eqb_eq in E. subst k0.
      apply eqb_neq in N. rewrite N. reflexivity.
    + rewrite IH. reflexivity.
Qed.

Lemma get_None_keys m k : get m k = None <-> ~ In k (keys m).
Proof.
  induction m as [|[k' v'] m IH]; simpl; [tauto|].
  destruct (eqb k' k) eqn:E.
  - apply eqb_eq in E. split; [discriminate | intros H; exfalso; auto].
  - apply eqb_neq in E. rewrite IH. tauto.
Qed.

Lemma get_Some_keys m k v : get m k = Some v -> In k (keys m).
Proof. intros H. apply get_In in H. apply (in_map fst) in H. exact H. Qed.

Lemma keys_set m k v :
  keys (set m k v) = match get m k with Some _ => keys m | None => keys m ++ [k] end.
Proof.
  induction m as [|[k' v'] m IH]; simpl; [reflexivity|].
  destruct (eqb k' k) eqn:E; simpl; [reflexivity|].
  rewrite IH. destruct (get m k); reflexivity.
Qed.

Lemma keys_set_NoDup m k v : NoDup (keys m) -> NoDup (keys (set m k v)).
Proof.
  intros N. rewrite keys_set. destruct (get m k) eqn:E; [exact N|].
  apply get_None_keys in E.
  apply NoDup_app; [exact N | repeat constructor; simpl; tauto |].
  intros x Hx [<-|[]]. exact (E Hx).
Qed.

Lemma keys_set_In m k v k' : In k' (keys (set m k v)) <-> k' = k \/ In k' (keys m).
Proof.
  rewrite keys_set. destruct (get m k) eqn:E.
  - apply get_Some_keys in E. split; [tauto | intros [->|H]; auto].
  - rewrite in_app_iff. simpl. split; intros H; intuition congruence.
Qed.

(** With distinct keys, an entry is what [get] finds. *)
Lemma In_get m k v : NoDup (keys m) -> In (k, v) m -> get m k = Some v.
Proof.
  induction m as [|[k' v'] m IH]; simpl; [tauto|].
  intros N [H|H]; inversion N as [|? ? Hn N']; subst.
  - inversion H; subst. rewrite eqb_refl. reflexivity.
  - destruct (eqb k' k) eqn:E.
    + apply eqb_eq in E. subst. exfalso. apply Hn.
      apply (in_map fst) in H. exact H.
    + auto.
Qed.
End DictFacts.

(* ================================================================== *)
(** * [vocabMap] and [termCounts] *)
(* ================================================================== *)

(** An index found in [vocabMap] is a position of that word. *)
Lemma buildVocabMap_sound (rest pre : list jsstring) (m : dict nat) :
  (forall w i, get m w = Some i -> nth_error (pre ++ rest) i = Some w) ->
  forall w i, get (buildVocabMap rest (length pre) m) w = Some i ->
              nth_error (pre ++ rest) i = Some w.
Proof.
  revert pre m. induction rest as [|word rest IH]; intros pre m H w i G.
  - simpl in G. auto.
  - cbn [buildVocabMap] in G.
    replace (S (length pre)) with (length (pre ++ [word])) in G
      by (rewrite length_app; simpl; lia).
    replace (pre ++ word :: rest) with ((pre ++ [word]) ++ rest) in *
      by (rewrite <- app_assoc; reflexivity).
    apply IH in G; [exact G|].
    intros w' i' G'.
    destruct (eqb word w') eqn:E.
    + apply eqb_eq in E. subst w'. rewrite get_set_same in G'.
      inversion G'; subst. rewrite <- app_assoc. simpl.
      rewrite nth_error_app2 by lia. rewrite Nat.sub_diag. reflexivity.
    + apply eqb_neq in E. rewrite get_set_other in G' by assumption. auto.
Qed.

Lemma buildVocabMap_keys (rest : list jsstring) (idx : nat) (m : dict nat) (w : jsstring) :
  In w (keys (buildVocabMap rest idx m)) <-> In w (keys m) \/ In w rest.
Proof.
  revert idx m. induction rest as [|word rest IH]; intros idx m; simpl.
  - tauto.
  - rewrite IH, keys_set_In. intuition congruence.
Qed.

Lemma vocabMap_sound (vocab : list jsstring) (idf : list R) w i :
  get (vocabMap (newSimpleTFIDF vocab idf)) w = Some i ->
  nth_error vocab i = Some w.
Proof.
  simpl. intros G.
  apply (buildVocabMap_sound vocab [] []); [discriminate | exact G].
Qed.

Lemma vocabMap_absent (vocab : list jsstring) (idf : list R) w :
  ~ In w vocab -> get (vocabMap (newSimpleTFIDF vocab idf)) w = None.
Proof.
  intros N. apply get_None_keys. simpl. rewrite buildVocabMap_keys.
  simpl. tauto.
Qed.

Lemma set_In (V : Type) (m : dict V) k v k' v' :
  In (k', v') (set m k v) -> (k' = k /\ v' = v) \/ In (k', v') m.
Proof.
  induction m as [|[k0 v0] m IH]; simpl.
  - intros [H|[]]. inversion H; auto.
  - destruct (eqb k0 k) eqn:E; simpl.
    + apply eqb_eq in E. subst. intros [H|H]; [inversion H|]; auto.
    + intros [H|H]; [auto|]. apply IH in H. tauto.
Qed.

Lemma termCounts_invariant (toks : list jsstring) (m : dict nat) :
  NoDup (keys m) -> positiveCounts m ->
  NoDup (keys (fold_left countToken toks m))
  /\ positiveCounts (fold_left countToken toks m)
  /\ (forall w, In w (keys (fold_left countToken toks m))
                <-> In w (keys m) \/ In w toks).
Proof.
  revert m. induction toks as [|t toks IH]; intros m N P; simpl.
  - repeat split; try assumption; tauto.
  - destruct (IH (countToken m t)) as [N' [P' K']].
    + apply keys_set_NoDup, N.
    + intros w c H. apply set_In in H. destruct H as [[_ ->]|H]; [lia|].
      apply (P _ _ H).
    + repeat split; try assumption.
      * intros H. apply K' in H. unfold countToken in H.
        rewrite keys_set_In in H. intuition congruence.
      * intros H. apply K'. unfold countToken. rewrite keys_set_In.
        intuition congruence.
Qed.

Lemma termCounts_facts (toks : list jsstring) :
  NoDup (keys (termCounts toks))
  /\ positiveCounts (termCounts toks)
  /\ (forall w, In w (keys (termCounts toks)) <-> In w toks).
Proof.
  destruct (termCounts_invariant toks []) as [N [P K]].
  - constructor.
  - intros w c [].
  - repeat split; try assumption; intros H; apply K in H || apply K; simpl in *; tauto.
Qed.

(* ================================================================== *)
(** * The norm of the feature vector *)
(* ================================================================== *)

Open Scope R_scope.

Lemma sumSq_nonneg (fs : list R) : 0 <= sumSq fs.
Proof.
  induction fs as [|f fs IH]; simpl; [lra|].
  pose proof (Rle_0_sqr f) as Q. unfold Rsqr in Q. lra.
Qed.

Lemma sumSq_repeat0 (n : nat) : sumSq (repeat 0 n) = 0.
Proof. induction n as [|n IH]; simpl; [reflexivity | rewrite IH; lra]. Qed.

Lemma length_writeAt (A : Type) (l : list A) (i : nat) (v : A) :
  length (writeAt l i v) = length l.
Proof.
  revert i; induction l as [|x l IH]; intros [|i]; simpl; auto.
Qed.

Lemma map_writeAt (A B : Type) (f : A -> B) (l : list A) (i : nat) (v : A) :
  writeAt (map f l) i (f v) = map f (writeAt l i v).
Proof.
  revert i; induction l as [|x l IH]; intros [|i]; simpl; try reflexivity.
  rewrite IH. reflexivity.
Qed.

Lemma nth_writeAt_same (A : Type) (l : list A) (i : nat) (v d : A) :
  (i < length l)%nat -> nth i (writeAt l i v) d = v.
Proof.
  revert i; induction l as [|x l IH]; intros [|i] L; simpl in *;
    try lia; [reflexivity | apply IH; lia].
Qed.

Lemma nth_writeAt_other (A : Type) (l : list A) (i j : nat) (v d : A) :
  i <> j -> nth j (writeAt l i v) d = nth j l d.
Proof.
  revert i j; induction l as [|x l IH]; intros [|i] [|j] N; simpl;
    try reflexivity; try congruence.
  apply IH. congruence.
Qed.

Lemma sumSq_writeAt (fs : list R) (i : nat) (v : R) :
  (i < length fs)%nat ->
  sumSq (writeAt fs i v) = sumSq fs - nth i fs 0 * nth i fs 0 + v * v.
Proof.
  revert i; induction fs as [|f fs IH]; intros [|i] L; simpl in *; try lia.
  - lra.
  - rewrite IH by lia. lra.
Qed.

Lemma sumSq_zero (fs : list R) : sumSq fs = 0 -> fs = repeat 0 (length fs).
Proof.
  induction fs as [|f fs IH]; simpl; [reflexivity|]. intros H.
  pose proof (sumSq_nonneg fs). pose proof (Rle_0_sqr f) as Q. unfold Rsqr in Q.
  assert (F : f = 0).
  { destruct (Req_dec f 0) as [E|E]; [exact E|].
    pose proof (Rsqr_pos_lt f E) as Q'. unfold Rsqr in Q'. lra. }
  subst f. f_equal. apply IH. lra.
Qed.



Section RawVector.
Variables (vocab : list jsstring) (idf : list R).
Hypothesis idf_length : length idf = length vocab.

Lemma rawInv_init : rawInv vocab idf [] (repeat (Num 0) (length vocab), Num 0).
Proof.
  exists (repeat 0 (length vocab)). repeat split.
  - rewrite map_repeat, sumSq_repeat0. reflexivity.
  - apply repeat_length.
  - intros j H. exfalso. apply H.
    destruct (nth_in_or_default j (repeat 0 (length vocab)) 0) as [I|E];
      [apply repeat_spec in I; exact I | exact E].
  - intros w c j d [].
Qed.

Lemma addTerm_inv (done : dict nat) st (w : jsstring) (c : nat) :
  rawInv vocab idf done st -> ~ In w (keys done) ->
  rawInv vocab idf (done ++ [(w, c)]) (addTerm (newSimpleTFIDF vocab idf) st (w, c)).
Proof.
  intros [fs [-> [L [P1 P2]]]] Fresh. unfold addTerm.
  destruct (get (vocabMap (newSimpleTFIDF vocab idf)) w) as [idx|] eqn:G.
  - pose proof (vocabMap_sound _ _ _ _ G) as V.
    assert (I : (idx < length vocab)%nat)
      by (apply nth_error_Some; congruence).
    destruct (nth_error idf idx) as [d|] eqn:D;
      [|apply nth_error_None in D; lia].
    assert (Old : nth idx fs 0 = 0).
    { destruct (Req_dec (nth idx fs 0) 0) as [E|E]; [exact E|].
      destruct (P1 _ E) as [w' [c' [In' G']]].
      pose proof (vocabMap_sound _ _ _ _ G') as V'.
      assert (w' = w) by congruence. subst w'.
      exfalso. apply Fresh. apply (in_map fst) in In'. exact In'. }
    exists (writeAt fs idx (INR c * d)). repeat split.
    + unfold readNum. cbn [idfValues newSimpleTFIDF].
      rewrite D. cbn [nmul lift2 nadd].
      rewrite (map_writeAt _ _ Num). rewrite sumSq_writeAt by lia.
      rewrite Old. do 2 f_equal. lra.
    + rewrite length_writeAt. exact L.
    + intros j H. destruct (Nat.eq_dec idx j) as [<-|N].
      * exists w, c. split; [apply in_or_app; right; left; reflexivity | exact G].
      * rewrite nth_writeAt_other in H by exact N.
        destruct (P1 _ H) as [w' [c' [In' G']]].
        exists w', c'. split; [apply in_or_app; left; exact In' | exact G'].
    + intros w' c' j d' In' G' D'.
      apply in_app_or in In'. destruct In' as [In'|[E|[]]].
      * assert (N : idx <> j).
        { intros <-. pose proof (vocabMap_sound _ _ _ _ G') as V'.
          assert (w' = w) by congruence. subst w'.
          apply Fresh. apply (in_map fst) in In'. exact In'. }
        rewrite nth_writeAt_other by exact N. eauto.
      * inversion E; subst w' c'.
        assert (j = idx) by congruence. subst j.
        assert (d' = d) by congruence. subst d'.
        apply nth_writeAt_same. lia.
  - exists fs. repeat split; try assumption.
    + intros j H. destruct (P1 _ H) as [w' [c' [In' G']]].
      exists w', c'. split; [apply in_or_app; left; exact In' | exact G'].
    + intros w' c' j d' In' G' D'.
      apply in_app_or in In'. destruct In' as [In'|[E|[]]]; [eauto|].
      inversion E; subst w' c'. congruence.
Qed.

Lemma fold_addTerm_inv (es done : dict nat) st :
  NoDup (keys (done ++ es)) -> rawInv vocab idf done st ->
  rawInv vocab idf (done ++ es) (fold_left (addTerm (newSimpleTFIDF vocab idf)) es st).
Proof.
  revert done st. induction es as [|[w c] es IH]; intros done st N I.
  - rewrite app_nil_r. exact I.
  - cbn [fold_left].
    replace (done ++ (w, c) :: es) with ((done ++ [(w, c)]) ++ es) in *
      by (rewrite <- app_assoc; reflexivity).
    apply IH; [exact N|].
    apply addTerm_inv; [exact I|].
    unfold keys in N. rewrite !map_app in N. simpl in N.
    rewrite <- app_assoc in N. simpl in N.
    apply NoDup_remove_2 in N. intros H. apply N.
    apply in_or_app. left. exact H.
Qed.

Lemma rawVector_inv (text : jsstring) :
  rawInv vocab idf (termCounts (tokens text)) (rawVector (newSimpleTFIDF vocab idf) text).
Proof.
  apply (fold_addTerm_inv (termCounts (tokens text)) []).
  - apply termCounts_facts.
  - apply rawInv_init.
Qed.
End RawVector.


Lemma map_Num_div (raw : list R) (k : R) :
  map (fun f => ndiv f (Num k)) (map Num raw)
  = map Num (map (fun f => f / k) raw).
Proof. rewrite !map_map. reflexivity. Qed.


(* ================================================================== *)
(** * Termination of the stemmer *)
(* ================================================================== *)

Close Scope R_scope.


Import Fuelled.

(** ** Enough fuel gives the result of the plain function *)

Lemma returns_ret (A : Type) (a : A) : returns (ret a) a.
Proof. exists 0. reflexivity. Qed.

Lemma returns_bind (A B : Type) (m : M A) (k : A -> M B) (a : A) (b : B) :
  returns m a -> returns (k a) b -> returns (bind m k) b.
Proof.
  intros [n1 H1] [n2 H2]. exists (Nat.max n1 n2). intros fuel L.
  unfold bind. rewrite H1 by lia. apply H2. lia.
Qed.

Lemma returns_mapM (A B : Type) (f : A -> M B) (g : A -> B) (l : list A) :
  (forall x, returns (f x) (g x)) -> returns (mapM f l) (map g l).
Proof.
  intros H. induction l as [|x l IH]; cbn [mapM map].
  - apply returns_ret.
  - eapply returns_bind; [apply H|].
    eapply returns_bind; [apply IH|]. apply returns_ret.
Qed.

Lemma returns_existsM (A : Type) (f : A -> M bool) (g : A -> bool) (l : list A) :
  (forall x, returns (f x) (g x)) -> returns (existsM f l) (existsb g l).
Proof.
  intros H. induction l as [|x l IH]; cbn [existsM existsb].
  - apply returns_ret.
  - eapply returns_bind; [apply H|].
    destruct (g x); [apply returns_ret | exact IH].
Qed.

Lemma returns_findM (A : Type) (f : A -> M bool) (g : A -> bool) (l : list A) :
  (forall x, returns (f x) (g x)) -> returns (findM f l) (find g l).
Proof.
  intros H. induction l as [|x l IH]; cbn [findM find].
  - apply returns_ret.
  - eapply returns_bind; [apply H|].
    destruct (g x); [apply returns_ret | exact IH].
Qed.

(** The index passed to the recursive call of [isConsonant] is one
    less, so [i] units of fuel are enough at index [i]. *)
Lemma isConsonantF_enough (word : jsstring) (i : nat) :
  forall fuel, i <= fuel -> isConsonantF word i fuel = Some (isConsonant word i).
Proof.
  induction i as [|i IH]; intros fuel L.
  - destruct fuel; cbn [isConsonantF isConsonant Nat.eqb];
      destruct (isVowel (charAt word 0)); try reflexivity;
      destruct (isChar (charAt word 0) "y"); reflexivity.
  - destruct fuel as [|f]; [lia|].
    cbn [isConsonantF isConsonant Nat.eqb].
    destruct (isVowel (charAt word (S i))); [reflexivity|].
    destruct (isChar (charAt word (S i)) "y"); [|reflexivity].
    replace (S i - 1) with i by lia.
    rewrite IH by lia. reflexivity.
Qed.

Lemma returns_isConsonantF (word : jsstring) (i : nat) :
  returns (isConsonantF word i) (isConsonant word i).
Proof. exists i. apply isConsonantF_enough. Qed.

Lemma startsWith_length (s p : jsstring) :
  startsWith s p = true -> length p <= length s.
Proof.
  intros H. apply startsWith_iff in H. destruct H as [r ->].
  rewrite length_app. lia.
Qed.

Lemma findFrom_bound (s pat : jsstring) :
  forall k q, findFrom s pat k = Some q ->
              k <= q /\ q + length pat <= k + length s.
Proof.
  induction s as [|c t IH]; intros k q H; cbn [findFrom] in H.
  - destruct (startsWith [] pat) eqn:E; [|discriminate H].
    apply startsWith_length in E. injection H as <-. lia.
  - destruct (startsWith (c :: t) pat) eqn:E.
    + apply startsWith_length in E. injection H as <-. lia.
    + apply IH in H. simpl. lia.
Qed.

(** [indexOf] answers with a position not before [pos] at which the
    whole pattern fits. *)
Lemma indexOf_bound (cv pat : jsstring) (pos q : nat) :
  indexOf cv pat pos = Some q ->
  Nat.min pos (length cv) <= q /\ q + length pat <= length cv.
Proof.
  unfold indexOf. intros H. apply findFrom_bound in H.
  rewrite length_skipn in H. lia.
Qed.

(** Every round of the [while] loop of [measure] moves [pos] to the
    right, so the loop is over after at most [length cv] rounds. *)
Lemma countLoopF_enough (cv : jsstring) :
  forall fuel n pos count,
    (forall p, pos = Some p ->
               p + 2 <= length cv /\ length cv - p <= fuel /\ length cv - p <= n) ->
    countLoopF cv pos count fuel = Some (countLoop n cv pos count).
Proof.
  induction fuel as [|f IH]; intros n pos count H.
  - destruct pos as [p|].
    + destruct (H p eq_refl) as [? [? ?]]. lia.
    + destruct n; reflexivity.
  - destruct pos as [p|].
    + destruct (H p eq_refl) as [P [F N]].
      destruct n as [|n]; [lia|].
      cbn [countLoopF countLoop]. apply IH.
      intros q E. apply indexOf_bound in E. simpl in E. lia.
    + destruct n; reflexivity.
Qed.

Lemma returns_cvSequenceF (stem : jsstring) :
  returns (cvSequenceF stem) (cvSequence stem).
Proof.
  unfold cvSequenceF, cvSequence. apply returns_mapM. intros i.
  eapply returns_bind; [apply returns_isConsonantF | apply returns_ret].
Qed.

Lemma returns_measureF (stem : jsstring) : returns (measureF stem) (measure stem).
Proof.
  unfold measureF, measure.
  eapply returns_bind; [apply returns_cvSequenceF|].
  exists (length (cvSequence stem)). intros fuel L.
  apply countLoopF_enough. intros p E.
  apply indexOf_bound in E. simpl in E. lia.
Qed.

Lemma returns_hasPositiveMeasureF (stem : jsstring) :
  returns (hasPositiveMeasureF stem) (hasPositiveMeasure stem).
Proof.
  unfold hasPositiveMeasureF, hasPositiveMeasure.
  eapply returns_bind; [apply returns_measureF | apply returns_ret].
Qed.

Lemma returns_containsVowelF (stem : jsstring) :
  returns (containsVowelF stem) (containsVowel stem).
Proof.
  unfold containsVowelF, containsVowel. apply returns_existsM. intros i.
  eapply returns_bind; [apply returns_isConsonantF | apply returns_ret].
Qed.

Lemma returns_endsDoubleConsonantF (word : jsstring) :
  returns (endsDoubleConsonantF word) (endsDoubleConsonant word).
Proof.
  unfold endsDoubleConsonantF, endsDoubleConsonant.
  destruct ((2 <=? length word) && sameChar _ _).
  - rewrite andb_true_l. apply returns_isConsonantF.
  - apply returns_ret.
Qed.

Lemma returns_endsCVCF (word : jsstring) :
  returns (endsCVCF word) (endsCVC word).
Proof.
  unfold endsCVCF, endsCVC. cbv zeta.
  eapply returns_bind.
  { instantiate
      (1 := (3 <=? length word)
            && isConsonant word (length word - 3)
            && negb (isConsonant word (length word - 2))
            && isConsonant word (length word - 1)
            && negb (isChar (charAt word (length word - 1)) "w"
                     || isChar (charAt word (length word - 1)) "x"
                     || isChar (charAt word (length word - 1)) "y")).
    destruct (3 <=? length word); [|apply returns_ret].
    eapply returns_bind; [apply returns_isConsonantF|].
    destruct (isConsonant word (length word - 3)); [|apply returns_ret].
    eapply returns_bind; [apply returns_isConsonantF|].
    destruct (isConsonant word (length word - 2)); [apply returns_ret|].
    eapply returns_bind; [apply returns_isConsonantF|].
    apply returns_ret. }
  eapply returns_bind.
  { instantiate
      (1 := (length word =? 2)
            && negb (isConsonant word 0) && isConsonant word 1).
    destruct (length word =? 2); [|apply returns_ret].
    eapply returns_bind; [apply returns_isConsonantF|].
    destruct (isConsonant word 0); [apply returns_ret|].
    apply returns_isConsonantF. }
  apply returns_ret.
Qed.

Lemma returns_holdsF (cF : option conditionF) (c : option condition)
                     (stem : jsstring) :
  condRel cF c -> returns (holdsF cF stem) (holds c stem).
Proof.
  destruct cF as [f|], c as [g|]; cbn [condRel holdsF holds]; intros H.
  - apply H.
  - contradiction.
  - contradiction.
  - apply returns_ret.
Qed.

Lemma returns_applyRuleListF (word : jsstring)
      (rulesF : list (rule conditionF)) (rules : list (rule condition)) :
  Forall2 ruleRel rulesF rules ->
  returns (applyRuleListF word rulesF) (applyRuleList word rules).
Proof.
  induction 1 as [|[[sF rF] cF] [[s r] c] restF rest [Es [Er Ec]] _ IH];
    cbn [applyRuleListF applyRuleList].
  - apply returns_ret.
  - cbn [fst snd] in Es, Er, Ec. subst sF rF.
    eapply returns_bind.
    { instantiate (1 := eqb s (str "*d") && endsDoubleConsonant word).
      destruct (eqb s (str "*d")).
      - apply returns_endsDoubleConsonantF.
      - apply returns_ret. }
    destruct (eqb s (str "*d") && endsDoubleConsonant word).
    + eapply returns_bind; [apply returns_holdsF, Ec | apply returns_ret].
    + destruct (endsWith word s); [|exact IH].
      eapply returns_bind; [apply returns_holdsF, Ec | apply returns_ret].
Qed.

Ltac rules_rel :=
  repeat (apply Forall2_cons;
          [ split; [reflexivity | split; [reflexivity | cbn; auto]] | ]);
  apply Forall2_nil.

Lemma returns_step1aF (word : jsstring) : returns (step1aF word) (step1a word).
Proof.
  unfold step1aF, step1a.
  destruct (endsWith word (str "ies") && (length word =? 4)).
  - apply returns_ret.
  - apply returns_applyRuleListF. unfold step1aRules. rules_rel.
Qed.

Lemma returns_step1bSuffixF (word : jsstring) :
  returns (step1bSuffixF word) (step1bSuffix word).
Proof.
  unfold step1bSuffixF, step1bSuffix. apply returns_findM. intros suffix.
  destruct (endsWith word suffix).
  - apply returns_containsVowelF.
  - apply returns_ret.
Qed.

Lemma returns_step1bF (word : jsstring) : returns (step1bF word) (step1b word).
Proof.
  unfold step1bF, step1b.
  destruct (endsWith word (str "ied")).
  { destruct (length word =? 4); apply returns_ret. }
  destruct (endsWith word (str "eed")).
  { cbv zeta. eapply returns_bind; [apply returns_measureF | apply returns_ret]. }
  eapply returns_bind; [apply returns_step1bSuffixF|].
  destruct (step1bSuffix word) as [suffix|]; [|apply returns_ret].
  cbv zeta. apply returns_applyRuleListF. unfold step1bRules.
  assert (C : forall stem,
             returns (m <- measureF stem ;;
                      if m =? 1 then endsCVCF stem else ret false)
                     ((measure stem =? 1) && endsCVC stem)).
  { intros stem. eapply returns_bind; [apply returns_measureF|].
    destruct (measure stem =? 1); [apply returns_endsCVCF | apply returns_ret]. }
  assert (D : forall stem : jsstring,
             returns (ret (notLSZ (replaceSuffix word suffix [])))
                     (notLSZ (replaceSuffix word suffix [])))
    by (intros; apply returns_ret).
  rules_rel.
Qed.

Lemma returns_step1cF (word : jsstring) : returns (step1cF word) (step1c word).
Proof.
  unfold step1cF, step1c. cbv zeta. apply returns_applyRuleListF.
  unfold step1cRules.
  assert (C : forall stem : jsstring,
             returns (if 1 <? length stem
                      then isConsonantF stem (length stem - 1) else ret false)
                     ((1 <? length stem) && isConsonant stem (length stem - 1))).
  { intros stem. destruct (1 <? length stem);
      [apply returns_isConsonantF | apply returns_ret]. }
  rules_rel.
Qed.

Lemma returns_step2TableF (word : jsstring) :
  returns (step2TableF word) (step2Table word).
Proof.
  unfold step2TableF, step2Table. apply returns_applyRuleListF.
  unfold step2Rules.
  pose proof returns_hasPositiveMeasureF as C.
  assert (D : forall stem : jsstring,
             returns (hasPositiveMeasureF (sliceEnd word 3))
                     (hasPositiveMeasure (sliceEnd word 3)))
    by (intros; apply returns_hasPositiveMeasureF).
  rules_rel.
Qed.

Lemma step2F_eq (word : jsstring) (fuel : nat) :
  step2F word fuel =
  if endsWith word (str "alli") then
    match hasPositiveMeasureF (replaceSuffix word (str "alli") []) fuel with
    | None => None
    | Some true =>
        match fuel with
        | 0 => None
        | S f => step2F (replaceSuffix word (str "alli") (str "al")) f
        end
    | Some false => step2TableF word fuel
    end
  else step2TableF word fuel.
Proof. destruct fuel; reflexivity. Qed.

(** The word [step2] passes to itself is shorter, so the chain of calls
    is finite. *)
Lemma returns_step2F_bounded (n : nat) :
  forall word, length word <= n -> returns (step2F word) (step2 word).
Proof.
  induction n as [|n IH]; intros word L; rewrite step2_eq.
  - destruct word; [|simpl in L; lia].
    destruct (returns_step2TableF []) as [k H].
    exists k. intros fuel F. rewrite step2F_eq. apply H, F.
  - destruct (endsWith word (str "alli")) eqn:E.
    + rewrite andb_true_l.
      destruct (returns_hasPositiveMeasureF
                  (replaceSuffix word (str "alli") [])) as [k1 H1].
      destruct (hasPositiveMeasure (replaceSuffix word (str "alli") [])).
      * pose proof (step2_call_shorter _ E) as Sh.
        destruct (IH (replaceSuffix word (str "alli") (str "al")))
          as [k2 H2]; [lia|].
        exists (Nat.max k1 (S k2)). intros fuel F.
        rewrite step2F_eq, E, H1 by lia.
        destruct fuel as [|f]; [lia|]. apply H2. lia.
      * destruct (returns_step2TableF word) as [k3 H3].
        exists (Nat.max k1 k3). intros fuel F.
        rewrite step2F_eq, E, H1 by lia. apply H3. lia.
    + cbn [andb].
      destruct (returns_step2TableF word) as [k H].
      exists k. intros fuel F. rewrite step2F_eq, E. apply H, F.
Qed.

Lemma returns_step2F (word : jsstring) : returns (step2F word) (step2 word).
Proof. apply (returns_step2F_bounded (length word)). lia. Qed.

Lemma returns_step3F (word : jsstring) : returns (step3F word) (step3 word).
Proof.
  unfold step3F, step3. apply returns_applyRuleListF. unfold step3Rules.
  pose proof returns_hasPositiveMeasureF as C. rules_rel.
Qed.

Lemma returns_step4F (word : jsstring) : returns (step4F word) (step4 word).
Proof.
  unfold step4F, step4. apply returns_applyRuleListF. unfold step4Rules.
  assert (C : forall stem,
             returns (m <- measureF stem ;; ret (1 <? m)) (1 <? measure stem))
    by (intros; eapply returns_bind; [apply returns_measureF | apply returns_ret]).
  assert (D : forall stem,
             returns (m <- measureF stem ;; ret ((1 <? m) && endsST stem))
                     ((1 <? measure stem) && endsST stem))
    by (intros; eapply returns_bind; [apply returns_measureF | apply returns_ret]).
  rules_rel.
Qed.

Lemma returns_step5aF (word : jsstring) : returns (step5aF word) (step5a word).
Proof.
  unfold step5aF, step5a.
  destruct (endsWith word (str "e")); [|apply returns_ret]. cbv zeta.
  eapply returns_bind; [apply returns_measureF|].
  destruct (1 <? measure _); [apply returns_ret|].
  destruct (measure _ =? 1); [|apply returns_ret].
  rewrite andb_true_l.
  eapply returns_bind; [apply returns_endsCVCF | apply returns_ret].
Qed.

Lemma returns_step5bF (word : jsstring) : returns (step5bF word) (step5b word).
Proof.
  unfold step5bF, step5b. apply returns_applyRuleListF. unfold step5bRules.
  assert (C : forall stem : jsstring,
             returns (m <- measureF (sliceEnd word 1) ;; ret (1 <? m))
                     (1 <? measure (sliceEnd word 1)))
    by (intros; eapply returns_bind; [apply returns_measureF | apply returns_ret]).
  rules_rel.
Qed.

Lemma returns_stepsF (w : jsstring) : returns (stepsF w) (steps w).
Proof.
  unfold stepsF, steps.
  eapply returns_bind; [apply returns_step1aF|].
  eapply returns_bind; [apply returns_step1bF|].
  eapply returns_bind; [apply returns_step1cF|].
  eapply returns_bind; [apply returns_step2F|].
  eapply returns_bind; [apply returns_step3F|].
  eapply returns_bind; [apply returns_step4F|].
  eapply returns_bind; [apply returns_step5aF|].
  apply returns_step5bF.
Qed.

Lemma returns_stemRulesF (w : jsstring) : returns (stemRulesF w) (stemRules w).
Proof.
  unfold stemRulesF, stemRules.
  destruct (length w <=? 2); [apply returns_ret|].
  eapply returns_bind; [apply returns_stepsF | apply returns_ret].
Qed.

Lemma returns_stemF (word : jsstring) : returns (stemF word) (stem word).
Proof.
  unfold stemF. rewrite stem_unfold. cbv zeta.
  destruct (getProp pool (toLowerCase word)) as [v|];
    [|apply returns_stemRulesF].
  destruct (truthy v); [apply returns_ret | apply returns_stemRulesF].
Qed.

(** C9.  [stem] terminates on every string.  In the reading where each
    call of [step2] to itself, each call of [isConsonant] to itself and
    each round of the loop of [measure] uses one unit of fuel, some
    amount of fuel is enough for [stem] to return, and what it returns
    is [stem word].  The word [step2] calls itself on is shorter than
    its argument, [isConsonant] at index [i] returns with [i] units of
    fuel because it calls itself at index [i - 1] only, and the loop of
    [measure] ends as well. *)
Theorem stem_terminates (word : jsstring) :
  (exists n, forall fuel, n <= fuel -> stemF word fuel = Some (stem word))
  /\ (forall w,
        endsWith w (str "alli") = true ->
        length (replaceSuffix w (str "alli") (str "al")) < length w)
  /\ (forall w i fuel,
        i <= fuel -> isConsonantF w i fuel = Some (isConsonant w i))
  /\ (forall w, exists n, forall fuel,
        n <= fuel -> measureF w fuel = Some (measure w)).
Proof.
  split; [exact (returns_stemF word)|]. split; [|split].
  - intros w E. pose proof (step2_call_shorter w E). lia.
  - intros w i. apply isConsonantF_enough.
  - intros w. exact (returns_measureF w).
Qed.

(* ================================================================== *)
(** * More on [predict] and [displayResult] *)
(* ================================================================== *)

Open Scope R_scope.

Lemma sigmoid_range (x : R) : 0 < sigmoid x < 1.
Proof.
  unfold sigmoid. pose proof (exp_pos (- x)) as E.
  split.
  - apply Rdiv_lt_0_compat; lra.
  - apply Rmult_lt_reg_r with (1 + exp (- x)); [lra|].
    unfold Rdiv. rewrite Rmult_assoc, Rinv_l by lra. lra.
Qed.




Lemma sigmoid_opp (x : R) : sigmoid (- x) = 1 - sigmoid x.
Proof.
  unfold sigmoid. rewrite Ropp_involutive.
  pose proof (exp_pos x). pose proof (exp_pos (- x)).
  assert (E : exp x * exp (- x) = 1)
    by (rewrite <- exp_plus; replace (x + - x) with 0 by lra; apply exp_0).
  apply Rmult_eq_reg_r with ((1 + exp x) * (1 + exp (- x)));
    [|apply Rgt_not_eq, Rmult_lt_0_compat; lra].
  field_simplify; [|lra|lra]. nra.
Qed.

(** The record [predict] builds, with the score of the specification. *)
Lemma predict_value (this : LogisticRegression) (features : list R) :
  length features = length (coef this) ->
  predict this (map Num features)
  = let p := sigmoid (intercept this + dot features (coef this)) in
    {| prediction := if Rgt_dec p (1/2) then 1%nat else 0%nat;
       confidence := if Rgt_dec p (1/2) then Num p else Num (1 - p);
       fakeProbability := Num p;
       realProbability := Num (1 - p) |}.
Proof.
  intros L. unfold predict. cbv zeta.
  pose proof (scoreLoop_dot this features (coef this) [] (intercept this)
                eq_refl L) as Q.
  cbn [length] in Q. rewrite Q.
  cbn [nneg nexp lift1 nadd ndiv nsub lift2 ngt].
  fold (sigmoid (intercept this + dot features (coef this))).
  destruct (Rgt_dec _ _); reflexivity.
Qed.



(** X2.  The two probabilities [predict] reports are complementary and
    lie between 0 and 1, and the confidence is one of the two and lies
    between one half and 1. *)
Theorem predict_probabilities (this : LogisticRegression) (features : list R) :
  length features = length (coef this) ->
  exists p c,
    fakeProbability (predict this (map Num features)) = Num p
    /\ realProbability (predict this (map Num features)) = Num (1 - p)
    /\ confidence (predict this (map Num features)) = Num c
    /\ 0 <= p <= 1
    /\ 1 / 2 <= c <= 1
    /\ (c = p \/ c = 1 - p).
Proof.
  intros L. rewrite (predict_value this features L). cbv zeta.
  cbn [fakeProbability realProbability confidence].
  pose proof (sigmoid_range (intercept this + dot features (coef this))) as R.
  set (p := sigmoid (intercept this + dot features (coef this))) in *.
  exists p. destruct (Rgt_dec p (1 / 2)) as [G|G].
  - exists p. repeat split; try reflexivity; lra.
  - exists (1 - p). repeat split; try reflexivity; lra.
Qed.

Lemma predict_probabilities_witness :
  exists p c,
    fakeProbability
      (predict {| coef := [1/2; -2]; intercept := 1 |} (map Num [3; 4])) = Num p
    /\ realProbability
         (predict {| coef := [1/2; -2]; intercept := 1 |} (map Num [3; 4]))
       = Num (1 - p)
    /\ confidence
         (predict {| coef := [1/2; -2]; intercept := 1 |} (map Num [3; 4]))
       = Num c
    /\ 0 <= p <= 1
    /\ 1 / 2 <= c <= 1
    /\ (c = p \/ c = 1 - p).
Proof.
  apply (predict_probabilities {| coef := [1/2; -2]; intercept := 1 |} [3; 4]).
  reflexivity.
Defined.

Lemma scoreLoop_NaN (this : LogisticRegression) (features : list num) (i : nat) :
  scoreLoop this features i NaN = NaN.
Proof.
  revert i. induction features as [|f rest IH]; intros i; [reflexivity|].
  cbn [scoreLoop]. apply IH.
Qed.

Lemma nadd_NaN_r (a : num) : nadd a NaN = NaN.
Proof. destruct a; reflexivity. Qed.

Lemma nmul_NaN_r (a : num) : nmul a NaN = NaN.
Proof. destruct a; reflexivity. Qed.

Lemma readNum_out (xs : list R) (i : nat) :
  (length xs <= i)%nat -> readNum xs i = NaN.
Proof.
  intros L. unfold readNum.
  destruct (nth_error xs i) eqn:E; [|reflexivity].
  assert (nth_error xs i <> None) as N by congruence.
  apply nth_error_Some in N. lia.
Qed.

(** A NaN among the features, or a feature without coefficient, makes
    the score NaN. *)
Lemma scoreLoop_poisoned (this : LogisticRegression) (features : list num) :
  forall i score,
    In NaN features
    \/ ((i <= length (coef this))%nat
        /\ (length (coef this) < i + length features)%nat) ->
    scoreLoop this features i score = NaN.
Proof.
  induction features as [|f rest IH]; intros i score H.
  - destruct H as [[]|[H1 H2]]. simpl in H2. lia.
  - cbn [scoreLoop].
    destruct H as [[->|H]|[H1 H2]].
    + cbn [nmul lift2]. rewrite nadd_NaN_r. apply scoreLoop_NaN.
    + apply IH. left. exact H.
    + destruct (Nat.eq_dec i (length (coef this))) as [E|E].
      * rewrite readNum_out by lia.
        rewrite nmul_NaN_r, nadd_NaN_r. apply scoreLoop_NaN.
      * apply IH. right. simpl in H2. lia.
Qed.

Lemma predict_poisoned (this : LogisticRegression) (features : list num) :
  In NaN features \/ (length (coef this) < length features)%nat ->
  predict this features
  = {| prediction := 0; confidence := NaN;
       fakeProbability := NaN; realProbability := NaN |}.
Proof.
  intros H. unfold predict. cbv zeta.
  rewrite scoreLoop_poisoned; [reflexivity|].
  destruct H as [H|H]; [left; exact H | right; lia].
Qed.

(** X4.  [predict] does not reject a feature vector it cannot score.
    When a feature is NaN, or there are more features than
    coefficients, both probabilities and the confidence are NaN and the
    label is 0. *)
Theorem predict_nan (this : LogisticRegression) (features : list num) :
  In NaN features \/ (length (coef this) < length features)%nat ->
  fakeProbability (predict this features) = NaN
  /\ realProbability (predict this features) = NaN
  /\ confidence (predict this features) = NaN
  /\ prediction (predict this features) = 0%nat.
Proof.
  intros H. rewrite (predict_poisoned this features H).
  repeat split; reflexivity.
Qed.

Lemma predict_nan_witness :
  fakeProbability (predict {| coef := [1/2]; intercept := 1 |} [Num 3; Num 4]) = NaN
  /\ realProbability (predict {| coef := [1/2]; intercept := 1 |} [Num 3; Num 4]) = NaN
  /\ confidence (predict {| coef := [1/2]; intercept := 1 |} [Num 3; Num 4]) = NaN
  /\ prediction (predict {| coef := [1/2]; intercept := 1 |} [Num 3; Num 4]) = 0%nat.
Proof.
  apply (predict_nan {| coef := [1/2]; intercept := 1 |} [Num 3; Num 4]).
  right. simpl. lia.
Defined.

Lemma nlt_true (x y : R) : x < y -> nlt (Num x) (Num y) = true.
Proof. intros H. simpl. destruct (Rlt_dec x y); [reflexivity | contradiction]. Qed.

Lemma nlt_false (x y : R) : ~ x < y -> nlt (Num x) (Num y) = false.
Proof. intros H. simpl. destruct (Rlt_dec x y); [contradiction | reflexivity]. Qed.

Lemma display_value (this : LogisticRegression) (features : list R) :
  length features = length (coef this) ->
  displayResult true (Some (predict this (map Num features)))
  = let p := sigmoid (intercept this + dot features (coef this)) in
    if Rle_dec (6/10) p then FakeNews
    else if Rle_dec p (4/10) then RealNews
    else Uncertain.
Proof.
  intros L. rewrite (predict_value this features L). cbv zeta.
  unfold displayResult. cbn [negb prediction confidence].
  set (p := sigmoid (intercept this + dot features (coef this))).
  destruct (Rgt_dec p (1/2)) as [G|G].
  - destruct (Rle_dec (6/10) p) as [A|A].
    + rewrite nlt_false by lra. reflexivity.
    + rewrite nlt_true by lra.
      destruct (Rle_dec p (4/10)); [lra | reflexivity].
  - destruct (Rle_dec (6/10) p) as [A|A]; [lra|].
    destruct (Rle_dec p (4/10)) as [B|B].
    + rewrite nlt_false by lra. reflexivity.
    + rewrite nlt_true by lra. reflexivity.
Qed.

(** X5.  [predict] followed by [displayResult], in terms of the
    probability of being fake that [predict] reports: the popup shows
    "Likely Fake News" whenever the probability is at least 6/10 and
    only when it is above one half, "Likely Reliable" whenever it is at
    most 4/10 and only when it is at most one half, and "Uncertain"
    only strictly between 4/10 and 6/10.  (The constant 0.6 of the code
    is the double next to 6/10, which lies below it; what is shown for
    a confidence between the two is left open here.) *)
Theorem display_thresholds (this : LogisticRegression) (features : list R) :
  length features = length (coef this) ->
  exists p,
    fakeProbability (predict this (map Num features)) = Num p
    /\ (6/10 <= p ->
        displayResult true (Some (predict this (map Num features))) = FakeNews)
    /\ (p <= 4/10 ->
        displayResult true (Some (predict this (map Num features))) = RealNews)
    /\ (displayResult true (Some (predict this (map Num features))) = Uncertain ->
        4/10 < p < 6/10)
    /\ (displayResult true (Some (predict this (map Num features))) = FakeNews ->
        1/2 < p)
    /\ (displayResult true (Some (predict this (map Num features))) = RealNews ->
        p <= 1/2)
    /\ displayResult true (Some (predict this (map Num features))) <> NotArticle
    /\ displayResult true (Some (predict this (map Num features))) <> Analyzing.
Proof.
  intros L. rewrite (display_value this features L).
  rewrite (predict_value this features L). cbv zeta. cbn [fakeProbability].
  exists (sigmoid (intercept this + dot features (coef this))).
  set (p := sigmoid (intercept this + dot features (coef this))).
  split; [reflexivity|].
  destruct (Rle_dec (6/10) p) as [A|A];
    [|destruct (Rle_dec p (4/10)) as [B|B]];
    repeat split; intros; try reflexivity; try discriminate; lra.
Qed.

Lemma display_thresholds_witness :
  exists p,
    fakeProbability
      (predict {| coef := [1]; intercept := 0 |} (map Num [0])) = Num p
    /\ (6/10 <= p ->
        displayResult true
          (Some (predict {| coef := [1]; intercept := 0 |} (map Num [0])))
        = FakeNews).
Proof.
  destruct (display_thresholds {| coef := [1]; intercept := 0 |} [0] eq_refl)
    as [p [E [F _]]].
  exists p. split; [exact E | exact F].
Defined.

(** X6.  A prediction that could not be computed is shown as reliable:
    when a feature is NaN or a coefficient is missing, [displayResult]
    on the result of [predict] shows "Likely Reliable", not "Uncertain"
    and not an error. *)
Theorem display_nan (this : LogisticRegression) (features : list num) :
  In NaN features \/ (length (coef this) < length features)%nat ->
  displayResult true (Some (predict this features)) = RealNews.
Proof.
  intros H. rewrite (predict_poisoned this features H). reflexivity.
Qed.

Lemma display_nan_witness :
  displayResult true
    (Some (predict {| coef := [1/2]; intercept := 1 |} [Num 3; Num 4]))
  = RealNews.
Proof.
  apply (display_nan {| coef := [1/2]; intercept := 1 |} [Num 3; Num 4]).
  right. simpl. lia.
Defined.

(* ================================================================== *)
(** * More on [termCounts], [vocabMap] and [transform] *)
(* ================================================================== *)

Close Scope R_scope.

Lemma countOf_countToken (m : dict nat) (x t : jsstring) :
  countOf (countToken m x) t
  = if eqb x t then countOf m x + 1 else countOf m t.
Proof.
  unfold countOf, countToken.
  destruct (eqb x t) eqn:E.
  - apply eqb_eq in E. subst t. rewrite get_set_same.
    destruct (get m x) as [[|n]|]; reflexivity.
  - apply eqb_neq in E. rewrite get_set_other by exact E. reflexivity.
Qed.

Lemma occurrences_cons (t x : jsstring) (toks : list jsstring) :
  occurrences t (x :: toks)
  = (if eqb t x then 1 else 0) + occurrences t toks.
Proof.
  unfold occurrences. cbn [filter]. destruct (eqb t x); reflexivity.
Qed.

Lemma eqb_sym (a b : jsstring) : eqb a b = eqb b a.
Proof.
  destruct (eqb a b) eqn:E.
  - apply eqb_eq in E. subst. symmetry. apply eqb_refl.
  - apply eqb_neq in E. symmetry. apply eqb_neq. congruence.
Qed.

Lemma countOf_fold (toks : list jsstring) (m : dict nat) (t : jsstring) :
  countOf (fold_left countToken toks m) t = countOf m t + occurrences t toks.
Proof.
  revert m. induction toks as [|x toks IH]; intros m; cbn [fold_left].
  - unfold occurrences. simpl. lia.
  - rewrite IH, countOf_countToken, occurrences_cons, (eqb_sym t x).
    destruct (eqb x t) eqn:E; [|lia].
    apply eqb_eq in E. subst. lia.
Qed.

Lemma occurrences_In (t : jsstring) (toks : list jsstring) :
  In t toks <-> 0 < occurrences t toks.
Proof.
  induction toks as [|x toks IH]; [simpl; unfold occurrences; simpl; lia|].
  rewrite occurrences_cons. simpl.
  destruct (eqb t x) eqn:E.
  - apply eqb_eq in E. subst. split; [lia | auto].
  - apply eqb_neq in E. rewrite IH. split; [intros [H|H]; [congruence|lia] | intros H; right; lia].
Qed.

Lemma termCounts_get (toks : list jsstring) (t : jsstring) :
  get (termCounts toks) t
  = if occurrences t toks =? 0 then None else Some (occurrences t toks).
Proof.
  pose proof (countOf_fold toks [] t) as C.
  fold (termCounts toks) in C. unfold countOf in C. simpl in C.
  destruct (termCounts_facts toks) as [_ [Pos K]].
  destruct (get (termCounts toks) t) as [n|] eqn:G.
  - subst n. pose proof (get_Some_keys _ _ _ _ G) as I.
    apply K, occurrences_In in I.
    destruct (Nat.eqb_spec (occurrences t toks) 0); [lia | reflexivity].
  - rewrite <- C. reflexivity.
Qed.

(** X7.  [termCounts] holds, for every token of the text, the number of
    times it occurs, has no entry for anything else, and lists each
    token once. *)
Theorem termCounts_counts (toks : list jsstring) :
  (forall t, In t toks -> get (termCounts toks) t = Some (occurrences t toks))
  /\ (forall t, ~ In t toks -> get (termCounts toks) t = None)
  /\ NoDup (keys (termCounts toks))
  /\ (forall t n, In (t, n) (termCounts toks) ->
                  In t toks /\ n = occurrences t toks).
Proof.
  destruct (termCounts_facts toks) as [N [Pos K]].
  split; [|split; [|split; [exact N|]]].
  - intros t I. rewrite termCounts_get. apply occurrences_In in I.
    destruct (Nat.eqb_spec (occurrences t toks) 0); [lia | reflexivity].
  - intros t I. rewrite termCounts_get.
    destruct (Nat.eqb_spec (occurrences t toks) 0) as [_|P]; [reflexivity|].
    exfalso. apply I, occurrences_In. lia.
  - intros t n I. pose proof (In_get _ _ _ _ N I) as G.
    rewrite termCounts_get in G.
    destruct (Nat.eqb_spec (occurrences t toks) 0) as [_|P]; [discriminate G|].
    split; [apply occurrences_In; lia | congruence].
Qed.

Lemma vocabMap_present (vocab : list jsstring) (idf : list R) (w : jsstring) :
  In w vocab -> exists i, get (vocabMap (newSimpleTFIDF vocab idf)) w = Some i.
Proof.
  intros I. destruct (get (vocabMap (newSimpleTFIDF vocab idf)) w) as [i|] eqn:G.
  - exists i. reflexivity.
  - apply get_None_keys in G. exfalso. apply G. simpl.
    apply buildVocabMap_keys. right. exact I.
Qed.

Lemma vocabMap_index (vocab : list jsstring) (idf : list R) (w : jsstring) (i : nat) :
  NoDup vocab -> nth_error vocab i = Some w ->
  get (vocabMap (newSimpleTFIDF vocab idf)) w = Some i.
Proof.
  intros N E.
  destruct (vocabMap_present vocab idf w (nth_error_In _ _ E)) as [j G].
  pose proof (vocabMap_sound _ _ _ _ G) as V.
  assert (J : j < length vocab) by (apply nth_error_Some; congruence).
  rewrite (proj1 (NoDup_nth_error vocab) N j i J) in G by congruence.
  exact G.
Qed.

(** X8.  [vocabMap] answers with a position of the word in the
    vocabulary, inside its bounds, and has no entry for a word that is
    not in the vocabulary; when the vocabulary has no repeated word, the
    answer for the word at position [i] is [i]. *)
Theorem vocabMap_lookup (vocab : list jsstring) (idf : list R) :
  (forall w i, get (vocabMap (newSimpleTFIDF vocab idf)) w = Some i ->
               nth_error vocab i = Some w /\ i < length vocab)
  /\ (forall w, get (vocabMap (newSimpleTFIDF vocab idf)) w = None
                <-> ~ In w vocab)
  /\ (NoDup vocab ->
      forall w i, nth_error vocab i = Some w ->
                  get (vocabMap (newSimpleTFIDF vocab idf)) w = Some i).
Proof.
  split; [|split].
  - intros w i G. pose proof (vocabMap_sound _ _ _ _ G) as V.
    split; [exact V | apply nth_error_Some; congruence].
  - intros w. split.
    + intros G I. destruct (vocabMap_present vocab idf w I) as [i E]. congruence.
    + apply vocabMap_absent.
  - intros N w i. apply vocabMap_index, N.
Qed.

Lemma addTerm_length (this : SimpleTFIDF) (st : list num * num)
                     (entry : jsstring * nat) :
  length (fst (addTerm this st entry)) = length (fst st).
Proof.
  destruct st as [features sumSquares], entry as [word count].
  unfold addTerm. destruct (get (vocabMap this) word); [|reflexivity].
  cbn [fst]. apply length_writeAt.
Qed.

Lemma rawVector_length (this : SimpleTFIDF) (text : jsstring) :
  length (fst (rawVector this text)) = length (vocabulary this).
Proof.
  unfold rawVector.
  assert (G : forall es st,
             length (fst (fold_left (addTerm this) es st)) = length (fst st)).
  { induction es as [|e es IH]; intros st; [reflexivity|].
    cbn [fold_left]. rewrite IH. apply addTerm_length. }
  rewrite G. cbn [fst]. apply repeat_length.
Qed.

Lemma transform_length_any (this : SimpleTFIDF) (text : jsstring) :
  length (transform this text) = length (vocabulary this).
Proof.
  unfold transform. pose proof (rawVector_length this text) as L.
  destruct (rawVector this text) as [features sumSquares]. cbn [fst] in L.
  destruct (ngt sumSquares (Num 0)); [rewrite length_map|]; exact L.
Qed.


Open Scope R_scope.

Lemma nth_error_combine (A B : Type) (l : list A) (l' : list B) (i : nat) a b :
  nth_error l i = Some a -> nth_error l' i = Some b ->
  nth_error (combine l l') i = Some (a, b).
Proof.
  revert l' i. induction l as [|x l IH]; intros [|y l'] [|i] Ha Hb;
    simpl in *; try discriminate.
  - congruence.
  - apply IH; assumption.
Qed.

Lemma tfidf_nth (vocab : list jsstring) (idf : list R) (toks : list jsstring)
                (i : nat) (w : jsstring) (d : R) :
  nth_error vocab i = Some w -> nth_error idf i = Some d ->
  nth i (tfidf vocab idf toks) 0 = INR (occurrences w toks) * d.
Proof.
  intros Hw Hd. apply nth_error_nth. unfold tfidf.
  rewrite nth_error_map, (nth_error_combine _ _ _ _ _ w d Hw Hd). reflexivity.
Qed.

Lemma tfidf_length (vocab : list jsstring) (idf : list R) (toks : list jsstring) :
  length idf = length vocab -> length (tfidf vocab idf toks) = length vocab.
Proof.
  intros L. unfold tfidf. rewrite length_map, length_combine. lia.
Qed.

(** With one IDF weight per word and no repeated word, the loop of
    [transform] computes count times weight at every position. *)
Lemma rawVector_tfidf (vocab : list jsstring) (idf : list R) (text : jsstring) :
  NoDup vocab -> length idf = length vocab ->
  rawVector (newSimpleTFIDF vocab idf) text
  = (map Num (tfidf vocab idf (tokens text)),
     Num (sumSq (tfidf vocab idf (tokens text)))).
Proof.
  intros N L.
  destruct (rawVector_inv vocab idf L text) as [fs [E [Lf [P1 P2]]]].
  assert (F : fs = tfidf vocab idf (tokens text)); [|rewrite E, F; reflexivity].
  destruct (termCounts_facts (tokens text)) as [Nk [Pos K]].
  apply (nth_ext _ _ 0 0); [rewrite tfidf_length by exact L; exact Lf|].
  intros i Hi. rewrite Lf in Hi.
  destruct (nth_error vocab i) as [w|] eqn:Hw;
    [|apply nth_error_None in Hw; lia].
  destruct (nth_error idf i) as [d|] eqn:Hd;
    [|apply nth_error_None in Hd; lia].
  rewrite (tfidf_nth vocab idf (tokens text) i w d Hw Hd).
  pose proof (vocabMap_index vocab idf w i N Hw) as G.
  destruct (Nat.eqb_spec (occurrences w (tokens text)) 0) as [Z|Z].
  - rewrite Z. simpl. rewrite Rmult_0_l.
    destruct (Req_dec (nth i fs 0) 0) as [Q|Q]; [exact Q|].
    destruct (P1 i Q) as [w' [c [I G']]].
    pose proof (vocabMap_sound _ _ _ _ G') as V.
    assert (w' = w) by congruence. subst w'.
    apply (in_map fst) in I. apply K, occurrences_In in I. simpl in I. lia.
  - assert (I : In (w, occurrences w (tokens text)) (termCounts (tokens text))).
    { apply get_In. rewrite termCounts_get.
      destruct (Nat.eqb_spec (occurrences w (tokens text)) 0); [lia|reflexivity]. }
    apply (P2 _ _ _ _ I G Hd).
Qed.

Lemma transform_of_raw (this : SimpleTFIDF) (text : jsstring) (raw : list R) :
  rawVector this text = (map Num raw, Num (sumSq raw)) ->
  transform this text = map Num (l2normalize raw).
Proof.
  intros E. unfold transform, l2normalize. rewrite E.
  destruct (Rlt_dec 0 (sumSq raw)) as [P|P].
  - rewrite ngt_true by lra. cbn [nsqrt lift1]. apply map_Num_div.
  - rewrite ngt_false by lra. reflexivity.
Qed.

(** X10.  For a vocabulary without repeated word and one IDF weight per
    word, [transform] is the TF-IDF vector in closed form: at every
    position the number of occurrences of the word among the tokens
    times its IDF weight, the whole divided by its Euclidean norm when
    that is not zero. *)
Theorem transform_tfidf (vocab : list jsstring) (idf : list R) (text : jsstring) :
  NoDup vocab -> length idf = length vocab ->
  transform (newSimpleTFIDF vocab idf) text
  = map Num (l2normalize (tfidf vocab idf (tokens text))).
Proof.
  intros N L. apply transform_of_raw, rawVector_tfidf; assumption.
Qed.

Lemma transform_tfidf_witness :
  transform (newSimpleTFIDF [str "report"; str "fake"] [1; 2])
            (str "this report is fake fake")
  = map Num (l2normalize
               (tfidf [str "report"; str "fake"] [1; 2]
                      (tokens (str "this report is fake fake")))).
Proof.
  apply (transform_tfidf [str "report"; str "fake"] [1; 2]).
  - repeat constructor; simpl; intuition discriminate.
  - reflexivity.
Defined.

(** Tokens outside the vocabulary leave the vector at zero, whatever
    the IDF array. *)
Lemma transform_absent (vocab : list jsstring) (idf : list R) (text : jsstring) :
  (forall t, In t (tokens text) -> ~ In t vocab) ->
  transform (newSimpleTFIDF vocab idf) text = repeat (Num 0) (length vocab).
Proof.
  intros A. unfold transform, rawVector.
  destruct (termCounts_facts (tokens text)) as [_ [_ K]].
  assert (G : forall es st,
             (forall e, In e es -> In (fst e) (tokens text)) ->
             fold_left (addTerm (newSimpleTFIDF vocab idf)) es st = st).
  { induction es as [|[w c] es IH]; intros st H; [reflexivity|].
    cbn [fold_left]. rewrite IH by (intros e I; apply H; right; exact I).
    destruct st as [features sumSquares]. unfold addTerm.
    rewrite vocabMap_absent; [reflexivity|].
    apply A. apply (H (w, c)). left. reflexivity. }
  rewrite G.
  - cbn [vocabulary newSimpleTFIDF]. rewrite ngt_false by lra. reflexivity.
  - intros e I. apply K. apply (in_map fst) in I. exact I.
Qed.



Lemma occurrences_Permutation (t : jsstring) (a b : list jsstring) :
  Permutation a b -> occurrences t a = occurrences t b.
Proof.
  induction 1 as [|x a b _ IH|x y a|a b c _ IH1 _ IH2].
  - reflexivity.
  - rewrite !occurrences_cons, IH. reflexivity.
  - rewrite !occurrences_cons. lia.
  - congruence.
Qed.

Lemma tfidf_ext (vocab : list jsstring) (idf : list R) (toks1 toks2 : list jsstring) :
  (forall w, In w vocab -> occurrences w toks1 = occurrences w toks2) ->
  tfidf vocab idf toks1 = tfidf vocab idf toks2.
Proof.
  intros H. unfold tfidf. apply map_ext_in. intros [w d] I.
  apply in_combine_l in I. cbn [fst snd]. rewrite (H w I). reflexivity.
Qed.

Lemma occurrences_filter (p : jsstring -> bool) (w : jsstring)
                         (toks : list jsstring) :
  p w = true -> occurrences w (filter p toks) = occurrences w toks.
Proof.
  intros H. induction toks as [|x toks IH]; [reflexivity|].
  cbn [filter]. destruct (p x) eqn:Px.
  - rewrite !occurrences_cons, IH. reflexivity.
  - rewrite occurrences_cons, IH.
    destruct (eqb w x) eqn:E; [|reflexivity].
    apply eqb_eq in E. subst x. congruence.
Qed.

(** X11.  The raw vector of [transform] depends on a text only through
    the number of times each vocabulary word occurs among its tokens:
    tokens outside the vocabulary and the order of the tokens do not
    change it.  The vector returned is the same for two texts whose
    tokens, once those outside the vocabulary are dropped, are the same
    sequence.  (For another order of the tokens the sum of squares is
    added up in another order.) *)
Theorem transform_bag_of_words (vocab : list jsstring) (idf : list R)
                               (text1 text2 : jsstring) :
  NoDup vocab -> length idf = length vocab ->
  ((forall w, In w vocab ->
              occurrences w (tokens text1) = occurrences w (tokens text2)) ->
   fst (rawVector (newSimpleTFIDF vocab idf) text1)
   = fst (rawVector (newSimpleTFIDF vocab idf) text2))
  /\ (Permutation (tokens text1) (tokens text2) ->
      fst (rawVector (newSimpleTFIDF vocab idf) text1)
      = fst (rawVector (newSimpleTFIDF vocab idf) text2))
  /\ (filter (fun t => existsb (eqb t) vocab) (tokens text1)
      = filter (fun t => existsb (eqb t) vocab) (tokens text2) ->
      transform (newSimpleTFIDF vocab idf) text1
      = transform (newSimpleTFIDF vocab idf) text2).
Proof.
  intros N L.
  assert (A : (forall w, In w vocab ->
                 occurrences w (tokens text1) = occurrences w (tokens text2)) ->
              fst (rawVector (newSimpleTFIDF vocab idf) text1)
              = fst (rawVector (newSimpleTFIDF vocab idf) text2)).
  { intros H.
    rewrite (rawVector_tfidf vocab idf text1 N L).
    rewrite (rawVector_tfidf vocab idf text2 N L).
    cbn [fst]. rewrite (tfidf_ext vocab idf _ _ H). reflexivity. }
  split; [exact A|]. split.
  - intros P. apply A. intros w _. apply occurrences_Permutation, P.
  - intros F.
    rewrite (transform_of_raw _ _ _ (rawVector_tfidf vocab idf text1 N L)).
    rewrite (transform_of_raw _ _ _ (rawVector_tfidf vocab idf text2 N L)).
    rewrite (tfidf_ext vocab idf (tokens text1) (tokens text2));
      [reflexivity|].
    intros w I.
    assert (Pw : (fun t => existsb (eqb t) vocab) w = true).
    { apply existsb_exists. exists w. split; [exact I | apply eqb_refl]. }
    rewrite <- (occurrences_filter _ w (tokens text1) Pw).
    rewrite <- (occurrences_filter _ w (tokens text2) Pw).
    rewrite F. reflexivity.
Qed.

Lemma transform_bag_of_words_witness :
  transform (newSimpleTFIDF [str "report"; str "fake"] [1; 2])
            (str "fake report, breaking")
  = transform (newSimpleTFIDF [str "report"; str "fake"] [1; 2])
              (str "the fake news report").
Proof.
  assert (N : NoDup [str "report"; str "fake"])
    by (repeat constructor; simpl; intuition discriminate).
  apply (transform_bag_of_words [str "report"; str "fake"] [1; 2]
           (str "fake report, breaking") (str "the fake news report")
           N eq_refl).
  vm_compute. reflexivity.
Defined.

Close Scope R_scope.

(* ================================================================== *)
(** * Bundles that do not fit *)
(* ================================================================== *)

Open Scope R_scope.

Lemma nth_writeAt_out (A : Type) (l : list A) (i j : nat) (v d : A) :
  (length l <= i)%nat -> nth j (writeAt l i v) d = nth j l d.
Proof.
  revert i j. induction l as [|x l IH]; intros [|i] [|j] L; simpl in *;
    try reflexivity; try lia.
  apply IH. lia.
Qed.

Lemma addTerm_keeps_NaN (vocab : list jsstring) (idf : list R) (idx0 : nat)
      (st : list num * num) (entry : jsstring * nat) :
  (length idf <= idx0)%nat ->
  nth idx0 (fst st) (Num 0) = NaN /\ snd st = NaN ->
  nth idx0 (fst (addTerm (newSimpleTFIDF vocab idf) st entry)) (Num 0) = NaN
  /\ snd (addTerm (newSimpleTFIDF vocab idf) st entry) = NaN.
Proof.
  intros L [F S]. destruct st as [features sumSquares], entry as [w c].
  cbn [fst snd] in F, S. subst sumSquares. unfold addTerm.
  destruct (get (vocabMap (newSimpleTFIDF vocab idf)) w) as [idx|];
    [|split; [exact F | reflexivity]].
  cbn [fst snd]. split; [|reflexivity].
  destruct (Nat.eq_dec idx idx0) as [->|N].
  - destruct (Nat.lt_ge_cases idx0 (length features)) as [I|I].
    + rewrite nth_writeAt_same by exact I.
      cbn [idfValues newSimpleTFIDF]. rewrite readNum_out by exact L.
      reflexivity.
    + rewrite nth_writeAt_out by exact I. exact F.
  - rewrite nth_writeAt_other by exact N. exact F.
Qed.

Lemma addTerm_makes_NaN (vocab : list jsstring) (idf : list R) (idx0 : nat)
      (st : list num * num) (w : jsstring) (c : nat) :
  (length idf <= idx0)%nat -> (idx0 < length (fst st))%nat ->
  get (vocabMap (newSimpleTFIDF vocab idf)) w = Some idx0 ->
  nth idx0 (fst (addTerm (newSimpleTFIDF vocab idf) st (w, c))) (Num 0) = NaN
  /\ snd (addTerm (newSimpleTFIDF vocab idf) st (w, c)) = NaN.
Proof.
  intros L I G. destruct st as [features sumSquares]. cbn [fst] in I.
  unfold addTerm. rewrite G. cbn [fst snd idfValues newSimpleTFIDF].
  rewrite readNum_out by exact L. cbn [nmul lift2].
  rewrite nth_writeAt_same by exact I. rewrite nadd_NaN_r. split; reflexivity.
Qed.

Lemma fold_addTerm_NaN (vocab : list jsstring) (idf : list R) (idx0 : nat)
      (w : jsstring) (c : nat) (es : dict nat) :
  forall st,
    (length idf <= idx0)%nat -> (idx0 < length (fst st))%nat ->
    get (vocabMap (newSimpleTFIDF vocab idf)) w = Some idx0 ->
    In (w, c) es ->
    nth idx0 (fst (fold_left (addTerm (newSimpleTFIDF vocab idf)) es st)) (Num 0)
    = NaN
    /\ snd (fold_left (addTerm (newSimpleTFIDF vocab idf)) es st) = NaN.
Proof.
  induction es as [|e es IH]; intros st L I G H; [destruct H|].
  cbn [fold_left]. destruct H as [->|H].
  - pose proof (addTerm_makes_NaN vocab idf idx0 st w c L I G) as P.
    clear IH. revert P.
    generalize (addTerm (newSimpleTFIDF vocab idf) st (w, c)) as st'.
    induction es as [|e es IH]; intros st' P; [exact P|].
    cbn [fold_left]. apply IH, addTerm_keeps_NaN; assumption.
  - apply IH; try assumption. rewrite addTerm_length. exact I.
Qed.

Lemma transform_NaN (vocab : list jsstring) (idf : list R) (text : jsstring)
      (t : jsstring) (idx : nat) :
  In t (tokens text) ->
  get (vocabMap (newSimpleTFIDF vocab idf)) t = Some idx ->
  (length idf <= idx)%nat ->
  nth idx (transform (newSimpleTFIDF vocab idf) text) (Num 0) = NaN
  /\ In NaN (transform (newSimpleTFIDF vocab idf) text).
Proof.
  intros T G L.
  pose proof (vocabMap_sound _ _ _ _ G) as V.
  assert (I : (idx < length vocab)%nat) by (apply nth_error_Some; congruence).
  destruct (termCounts_facts (tokens text)) as [_ [_ K]].
  apply K in T. unfold keys in T. apply in_map_iff in T.
  destruct T as [[t' c] [E T]]. cbn [fst] in E. subst t'.
  assert (P : nth idx (fst (rawVector (newSimpleTFIDF vocab idf) text)) (Num 0)
              = NaN
              /\ snd (rawVector (newSimpleTFIDF vocab idf) text) = NaN).
  { unfold rawVector. apply (fold_addTerm_NaN vocab idf idx t c); try assumption.
    cbn [fst vocabulary newSimpleTFIDF]. rewrite repeat_length. exact I. }
  pose proof (rawVector_length (newSimpleTFIDF vocab idf) text) as Len.
  unfold transform.
  destruct (rawVector (newSimpleTFIDF vocab idf) text) as [features sumSquares].
  cbn [fst snd] in P, Len. destruct P as [F S]. subst sumSquares.
  cbn [ngt]. split; [exact F|].
  rewrite <- F. apply nth_In. rewrite Len. exact I.
Qed.

(** X12.  An IDF array shorter than the vocabulary is not noticed until
    a token of the text sits at a position without weight: then the
    entry of that position is NaN in the vector [transform] returns, no
    normalization takes place, and [predict] followed by
    [displayResult] shows "Likely Reliable". *)
Theorem transform_missing_idf (vocab : list jsstring) (idf : list R)
        (text : jsstring) (t : jsstring) (idx : nat) :
  In t (tokens text) ->
  get (vocabMap (newSimpleTFIDF vocab idf)) t = Some idx ->
  (length idf <= idx)%nat ->
  nth idx (transform (newSimpleTFIDF vocab idf) text) (Num 0) = NaN
  /\ transform (newSimpleTFIDF vocab idf) text
     = fst (rawVector (newSimpleTFIDF vocab idf) text)
  /\ forall model,
       displayResult true
         (Some (predict model (transform (newSimpleTFIDF vocab idf) text)))
       = RealNews.
Proof.
  intros T G L.
  destruct (transform_NaN vocab idf text t idx T G L) as [F I].
  split; [exact F|]. split.
  - pose proof (vocabMap_sound _ _ _ _ G) as V.
    assert (J : (idx < length vocab)%nat) by (apply nth_error_Some; congruence).
    destruct (termCounts_facts (tokens text)) as [_ [_ K]].
    apply K in T. unfold keys in T. apply in_map_iff in T.
    destruct T as [[t' c] [E T]]. cbn [fst] in E. subst t'.
    assert (P : snd (rawVector (newSimpleTFIDF vocab idf) text) = NaN).
    { unfold rawVector.
      apply (fold_addTerm_NaN vocab idf idx t c); try assumption.
      cbn [fst vocabulary newSimpleTFIDF]. rewrite repeat_length. exact J. }
    unfold transform.
    destruct (rawVector (newSimpleTFIDF vocab idf) text) as [features ss].
    cbn [snd] in P. subst ss. reflexivity.
  - intros model. rewrite predict_poisoned by (left; exact I). reflexivity.
Qed.

Lemma transform_missing_idf_witness :
  nth 1 (transform (newSimpleTFIDF [str "report"; str "fake"] [1])
                   (str "a fake report")) (Num 0) = NaN.
Proof.
  apply (transform_missing_idf [str "report"; str "fake"] [1]
           (str "a fake report") (str "fake") 1).
  - vm_compute. left. reflexivity.
  - vm_compute. reflexivity.
  - simpl. lia.
Defined.

Lemma In_insertDesc (f g : nat * num) (sorted : list (nat * num)) :
  In g (insertDesc f sorted) <-> g = f \/ In g sorted.
Proof.
  induction sorted as [|h rest IH]; cbn [insertDesc].
  - simpl. intuition congruence.
  - destruct (ngt (snd h) (snd f)).
    + cbn [In]. rewrite IH. intuition congruence.
    + cbn [In]. intuition congruence.
Qed.

Lemma In_sortDesc (g : nat * num) (fs : list (nat * num)) :
  In g (sortDesc fs) <-> In g fs.
Proof.
  unfold sortDesc. induction fs as [|f fs IH]; cbn [fold_right In]; [tauto|].
  rewrite In_insertDesc, IH. intuition congruence.
Qed.

Lemma length_insertDesc (f : nat * num) (sorted : list (nat * num)) :
  length (insertDesc f sorted) = S (length sorted).
Proof.
  induction sorted as [|h rest IH]; cbn [insertDesc]; [reflexivity|].
  destruct (ngt (snd h) (snd f)); cbn [length]; [rewrite IH|]; reflexivity.
Qed.

Lemma length_sortDesc (fs : list (nat * num)) :
  length (sortDesc fs) = length fs.
Proof.
  unfold sortDesc. induction fs as [|f fs IH]; cbn [fold_right length];
    [reflexivity|].
  rewrite length_insertDesc, IH. reflexivity.
Qed.

Lemma indexed_In (features : list num) (s i : nat) (x : num) :
  nth_error features i = Some x ->
  In ((s + i)%nat, x) (combine (seq s (length features)) features).
Proof.
  revert s i. induction features as [|f rest IH]; intros s [|i] H;
    simpl in H; try discriminate H.
  - injection H as ->. left. rewrite Nat.add_0_r. reflexivity.
  - right. replace (s + S i)%nat with (S s + i)%nat by lia.
    apply IH, H.
Qed.

(** Every entry of the table is a position of the vector. *)
Lemma topFeatures_bound (features : list num) (f : nat * num) :
  In f (topFeatures features) -> (fst f < length features)%nat.
Proof.
  unfold topFeatures. intros H.
  assert (I : In f (sortDesc (filter (fun f => ngt (snd f) (Num 0))
                        (combine (seq 0 (length features)) features)))).
  { rewrite <- (firstn_skipn 20). apply in_or_app. left. exact H. }
  apply In_sortDesc, filter_In in I. destruct I as [I _].
  destruct f as [i x]. apply in_combine_l, in_seq in I. cbn [fst]. lia.
Qed.

Lemma topFeaturesThrow_false (vectorizer : SimpleTFIDF) (model : LogisticRegression)
                             (features : list num) :
  (length features <= length (vocabulary vectorizer))%nat ->
  (length features <= length (coef model))%nat ->
  topFeaturesThrow vectorizer model features = false.
Proof.
  intros V C. unfold topFeaturesThrow.
  destruct (existsb _ (topFeatures features)) eqn:E; [|reflexivity].
  apply existsb_exists in E. destruct E as [f [I B]].
  apply topFeatures_bound in I.
  apply orb_true_iff in B. destruct B as [B|B]; apply Nat.leb_le in B; lia.
Qed.

(** A feature above zero at a position without coefficient makes the
    table throw, when all features above zero find room in it. *)
Lemma topFeaturesThrow_true (vectorizer : SimpleTFIDF) (model : LogisticRegression)
                            (features : list num) (idx : nat) (x : R) :
  (length features <= 20)%nat ->
  nth_error features idx = Some (Num x) -> 0 < x ->
  (length (coef model) <= idx)%nat ->
  topFeaturesThrow vectorizer model features = true.
Proof.
  intros Small H P C. unfold topFeaturesThrow.
  apply existsb_exists. exists (idx, Num x). split.
  - unfold topFeatures. rewrite firstn_all2.
    + apply In_sortDesc, filter_In. split.
      * apply (indexed_In features 0 idx), H.
      * cbn [snd]. apply ngt_true. lra.
    + rewrite length_sortDesc.
      pose proof (filter_length_le (fun f : nat * num => ngt (snd f) (Num 0))
                    (combine (seq 0 (length features)) features)) as Q.
      rewrite length_combine, length_seq in Q. lia.
  - cbn [fst]. apply orb_true_iff. right. apply Nat.leb_le, C.
Qed.

Lemma filter_none (A : Type) (p : A -> bool) (l : list A) :
  (forall x, In x l -> p x = false) -> filter p l = [].
Proof.
  induction l as [|x l IH]; intros H; [reflexivity|].
  cbn [filter]. rewrite (H x) by (left; reflexivity).
  apply IH. intros y I. apply H. right. exact I.
Qed.

Lemma topFeatures_zero (n : nat) : topFeatures (repeat (Num 0) n) = [].
Proof.
  unfold topFeatures. rewrite filter_none; [reflexivity|].
  intros [i x] I. apply in_combine_r, repeat_spec in I. subst x.
  cbn [snd]. apply ngt_false. lra.
Qed.

Lemma analyzeArticle_runs (modelData : ModelData) (text : jsstring) :
  (length (md_vocabulary modelData) <= length (md_coefficients modelData))%nat ->
  analyzeArticle (Some modelData) text
  = Some (predict {| coef := md_coefficients modelData;
                     intercept := md_intercept modelData |}
            (transform (newSimpleTFIDF (md_vocabulary modelData)
                                       (md_idf_values modelData))
                       text)).
Proof.
  intros L. unfold analyzeArticle, loadModel. cbv zeta.
  rewrite topFeaturesThrow_false; [reflexivity| |];
    rewrite transform_length_any; cbn [vocabulary newSimpleTFIDF coef];
    [lia | exact L].
Qed.

(** [loadModel] hands back a bundle whose arrays have three different
    lengths, and one without vocabulary, and [analyzeArticle] runs inference
    on them. *)
Lemma loadModel_accepts_invalid :
  ~ validBundle mismatchedBundle
  /\ ~ validBundle emptyBundle
  /\ loadModel (Some mismatchedBundle) <> None
  /\ loadModel (Some emptyBundle) <> None
  /\ analyzeArticle (Some mismatchedBundle) (str "fake") <> None
  /\ analyzeArticle (Some emptyBundle) (str "fake") <> None.
Proof.
  split; [|split; [|split; [|split; [|split]]]].
  - intros [H _]. discriminate H.
  - intros [_ [_ H]]. apply H. reflexivity.
  - discriminate.
  - discriminate.
  - rewrite analyzeArticle_runs by (simpl; lia). discriminate.
  - rewrite analyzeArticle_runs by (simpl; lia). discriminate.
Qed.

(** C2, as the code has it.  [loadModel] checks nothing.  It returns
    [null] when something inside its [try] block throws, and on every
    parsed bundle of the expected types it builds the vectorizer and
    the model from the four fields as they are, whatever the lengths of
    the arrays.  [analyzeArticle] then runs [transform] and [predict]
    on them for every text when the coefficients are at least as many
    as the vocabulary words; with fewer coefficients it does the same
    unless its console table throws on a missing coefficient, which
    ends in the error handler. *)
Theorem loadModel_no_validation :
  loadModel None = None
  /\ (forall modelData,
        loadModel (Some modelData)
        = Some (newSimpleTFIDF (md_vocabulary modelData)
                               (md_idf_values modelData),
                {| coef := md_coefficients modelData;
                   intercept := md_intercept modelData |}))
  /\ (forall modelData text,
        (length (md_vocabulary modelData)
         <= length (md_coefficients modelData))%nat ->
        analyzeArticle (Some modelData) text
        = Some (predict {| coef := md_coefficients modelData;
                           intercept := md_intercept modelData |}
                  (transform (newSimpleTFIDF (md_vocabulary modelData)
                                             (md_idf_values modelData))
                             text)))
  /\ (forall modelData text,
        let vectorizer := newSimpleTFIDF (md_vocabulary modelData)
                                         (md_idf_values modelData) in
        let model := {| coef := md_coefficients modelData;
                        intercept := md_intercept modelData |} in
        (topFeaturesThrow vectorizer model (transform vectorizer text) = false
         /\ analyzeArticle (Some modelData) text
            = Some (predict model (transform vectorizer text)))
        \/ (topFeaturesThrow vectorizer model (transform vectorizer text) = true
            /\ analyzeArticle (Some modelData) text = None)).
Proof.
  split; [reflexivity|]. split; [reflexivity|]. split.
  - intros modelData text L. apply analyzeArticle_runs, L.
  - intros modelData text vectorizer model.
    unfold analyzeArticle, loadModel. cbv zeta. fold vectorizer model.
    destruct (topFeaturesThrow vectorizer model (transform vectorizer text));
      [right | left]; split; reflexivity.
Qed.

(** X13.  With fewer coefficients than vocabulary words [loadModel]
    still succeeds, and [analyzeArticle] never shows a computed
    probability: whenever it shows a result, the probabilities are NaN,
    the label is 0 and the popup says "Likely Reliable", as for every
    text without a vocabulary word; and it ends in its error handler
    when a feature above zero has no coefficient (for a vocabulary of
    at most twenty words, where every such feature is in the table). *)
Theorem analyzeArticle_short_coefficients (modelData : ModelData) (text : jsstring) :
  (length (md_coefficients modelData) < length (md_vocabulary modelData))%nat ->
  loadModel (Some modelData) <> None
  /\ (forall r,
        analyzeArticle (Some modelData) text = Some r ->
        r = {| prediction := 0; confidence := NaN;
               fakeProbability := NaN; realProbability := NaN |}
        /\ displayResult true (Some r) = RealNews)
  /\ ((forall t, In t (tokens text) -> ~ In t (md_vocabulary modelData)) ->
      analyzeArticle (Some modelData) text
      = Some {| prediction := 0; confidence := NaN;
                fakeProbability := NaN; realProbability := NaN |})
  /\ (forall idx x,
        (length (md_vocabulary modelData) <= 20)%nat ->
        nth_error (transform (newSimpleTFIDF (md_vocabulary modelData)
                                             (md_idf_values modelData)) text) idx
        = Some (Num x) ->
        0 < x ->
        (length (md_coefficients modelData) <= idx)%nat ->
        analyzeArticle (Some modelData) text = None).
Proof.
  intros L.
  assert (P : predict {| coef := md_coefficients modelData;
                         intercept := md_intercept modelData |}
                (transform (newSimpleTFIDF (md_vocabulary modelData)
                                           (md_idf_values modelData)) text)
              = {| prediction := 0; confidence := NaN;
                   fakeProbability := NaN; realProbability := NaN |}).
  { apply predict_poisoned. right.
    rewrite transform_length_any. exact L. }
  split; [discriminate|]. split; [|split].
  - intros r. unfold analyzeArticle, loadModel. cbv zeta.
    destruct (topFeaturesThrow _ _ _); [discriminate|].
    rewrite P. intros E. injection E as <-. split; reflexivity.
  - intros A. unfold analyzeArticle, loadModel. cbv zeta.
    rewrite P. rewrite (transform_absent _ _ _ A).
    unfold topFeaturesThrow. rewrite topFeatures_zero. reflexivity.
  - intros idx x Small H Pos C. unfold analyzeArticle, loadModel. cbv zeta.
    rewrite (topFeaturesThrow_true _ _ _ idx x); try assumption; [reflexivity|].
    rewrite transform_length_any. exact Small.
Qed.

Lemma analyzeArticle_short_coefficients_witness :
  analyzeArticle
    (Some {| md_vocabulary := [str "report"; str "fake"];
             md_idf_values := [1; 2];
             md_coefficients := [1];
             md_intercept := 0 |})
    (str "breaking news")
  = Some {| prediction := 0; confidence := NaN;
            fakeProbability := NaN; realProbability := NaN |}.
Proof.
  apply (analyzeArticle_short_coefficients
           {| md_vocabulary := [str "report"; str "fake"];
              md_idf_values := [1; 2];
              md_coefficients := [1];
              md_intercept := 0 |} (str "breaking news")).
  - simpl. lia.
  - assert (T : tokens (str "breaking news") = [str "break"; str "news"])
      by (vm_compute; reflexivity).
    rewrite T. intros t [<-|[<-|[]]] [H|[H|[]]]; discriminate H.
Defined.

(** The same bundle on a text with vocabulary words: the table reads
    the coefficient of "fake", which does not exist, and the popup
    shows the error. *)
Lemma analyzeArticle_error :
  analyzeArticle
    (Some {| md_vocabulary := [str "report"; str "fake"];
             md_idf_values := [1; 2];
             md_coefficients := [1];
             md_intercept := 0 |})
    (str "fake report")
  = None.
Proof.
  assert (N : NoDup [str "report"; str "fake"])
    by (repeat constructor; simpl; intuition discriminate).
  assert (T : tokens (str "fake report") = [str "fake"; str "report"])
    by (vm_compute; reflexivity).
  pose proof (transform_of_raw _ _ _
                (rawVector_tfidf [str "report"; str "fake"] [1; 2]
                                 (str "fake report") N eq_refl)) as E.
  rewrite T in E.
  assert (S : sumSq (tfidf [str "report"; str "fake"] [1; 2]
                           [str "fake"; str "report"]) = 5).
  { unfold tfidf. cbn [combine map fst snd sumSq].
    change (occurrences (str "report") [str "fake"; str "report"]) with 1%nat.
    change (occurrences (str "fake") [str "fake"; str "report"]) with 1%nat.
    simpl. lra. }
  unfold analyzeArticle, loadModel. cbv zeta.
  cbn [md_vocabulary md_idf_values md_coefficients md_intercept].
  rewrite (topFeaturesThrow_true _ _ _ 1 (2 / sqrt 5));
    [reflexivity | | | | simpl; lia].
  - rewrite transform_length_any. simpl. lia.
  - rewrite E. unfold l2normalize, norm. rewrite S.
    destruct (Rlt_dec 0 5) as [_|F]; [|lra].
    unfold tfidf. cbn [combine map fst snd nth_error].
    change (occurrences (str "fake") [str "fake"; str "report"]) with 1%nat.
    simpl. do 2 f_equal. lra.
  - apply Rdiv_lt_0_compat; [lra|]. apply sqrt_lt_R0. lra.
Qed.

(** X14.  With an empty vocabulary the text plays no part: [transform]
    returns the empty vector and [analyzeArticle] reports the
    probability [sigmoid intercept] for every text. *)
Theorem analyzeArticle_empty_vocabulary (modelData : ModelData) (text : jsstring) :
  md_vocabulary modelData = [] ->
  transform (newSimpleTFIDF (md_vocabulary modelData) (md_idf_values modelData))
            text = []
  /\ exists r,
       analyzeArticle (Some modelData) text = Some r
       /\ fakeProbability r = Num (sigmoid (md_intercept modelData)).
Proof.
  intros V.
  assert (T : transform (newSimpleTFIDF (md_vocabulary modelData)
                                        (md_idf_values modelData)) text = []).
  { apply length_zero_iff_nil. rewrite transform_length_any.
    cbn [vocabulary newSimpleTFIDF]. rewrite V. reflexivity. }
  split; [exact T|].
  eexists. split.
  - rewrite analyzeArticle_runs by (rewrite V; apply Nat.le_0_l). reflexivity.
  - rewrite T. reflexivity.
Qed.

Lemma analyzeArticle_empty_vocabulary_witness :
  transform (newSimpleTFIDF [] [1; 2]) (str "breaking news") = [].
Proof.
  apply (analyzeArticle_empty_vocabulary
           {| md_vocabulary := []; md_idf_values := [1; 2];
              md_coefficients := [3]; md_intercept := 0 |}
           (str "breaking news") eq_refl).
Defined.

Close Scope R_scope.

(* ================================================================== *)
(** * More on the stemmer *)
(* ================================================================== *)

Lemma countVC_cons (a : ascii) (rest : jsstring) :
  countVC (a :: rest)
  = (if startsWith (a :: rest) (str "vc") then 1 else 0) + countVC rest.
Proof. reflexivity. Qed.

(** What [indexOf] finds, in terms of the count: nothing when there is
    no occurrence, otherwise the first one, with the remaining
    occurrences to its right. *)
Lemma findFrom_countVC (s : jsstring) :
  forall k,
    match findFrom s (str "vc") k with
    | None => countVC s = 0
    | Some q => k <= q /\ countVC s = 1 + countVC (skipn (q - k + 1) s)
    end.
Proof.
  induction s as [|a rest IH]; intros k.
  - reflexivity.
  - cbn [findFrom]. rewrite countVC_cons.
    destruct (startsWith (a :: rest) (str "vc")) eqn:E.
    + split; [lia|]. rewrite Nat.sub_diag. reflexivity.
    + specialize (IH (S k)).
      destruct (findFrom rest (str "vc") (S k)) as [q|].
      * destruct IH as [L C]. split; [lia|].
        replace (q - k + 1) with (S (q - S k + 1)) by lia.
        cbn [skipn]. rewrite C. reflexivity.
      * rewrite IH. reflexivity.
Qed.

Lemma indexOf_countVC (cv : jsstring) (pos : nat) :
  pos <= length cv ->
  countVC (skipn pos cv)
  = match indexOf cv (str "vc") pos with
    | None => 0
    | Some q => 1 + countVC (skipn (q + 1) cv)
    end.
Proof.
  intros L. unfold indexOf.
  pose proof (findFrom_countVC (skipn pos cv) (Nat.min pos (length cv))) as F.
  destruct (findFrom (skipn pos cv) (str "vc") (Nat.min pos (length cv)))
    as [q|]; [|exact F].
  destruct F as [Q C]. rewrite C, skipn_skipn.
  replace (q - Nat.min pos (length cv) + 1 + pos) with (q + 1) by lia.
  reflexivity.
Qed.

Lemma countLoop_countVC (cv : jsstring) :
  forall n pos count,
    (forall p, pos = Some p -> p + 2 <= length cv /\ length cv - p <= n) ->
    countLoop n cv pos count
    = count + match pos with
              | None => 0
              | Some p => 1 + countVC (skipn (p + 1) cv)
              end.
Proof.
  induction n as [|n IH]; intros pos count H.
  - destruct pos as [p|]; [|simpl; lia].
    destruct (H p eq_refl). lia.
  - destruct pos as [p|]; [|simpl; lia].
    destruct (H p eq_refl) as [P N].
    cbn [countLoop]. rewrite IH.
    + rewrite (indexOf_countVC cv (p + 1)) by lia. lia.
    + intros q E. apply indexOf_bound in E. simpl in E. lia.
Qed.

Lemma measure_countVC (stem : jsstring) :
  measure stem = countVC (cvSequence stem).
Proof.
  unfold measure. cbv zeta. rewrite countLoop_countVC.
  - rewrite <- (indexOf_countVC (cvSequence stem) 0) by lia. reflexivity.
  - intros p E. apply indexOf_bound in E. simpl in E. lia.
Qed.

Lemma countVC_skip (a : ascii) (cv : jsstring) :
  a <> "v"%char -> countVC (a :: cv) = countVC cv.
Proof.
  intros N. rewrite countVC_cons.
  destruct (startsWith (a :: cv) (str "vc")) eqn:E; [|reflexivity].
  apply startsWith_iff in E. destruct E as [r E].
  inversion E. congruence.
Qed.

(** Two occurrences cannot overlap. *)
Lemma countVC_double (n : nat) :
  forall cv, length cv <= n -> 2 * countVC cv <= length cv.
Proof.
  induction n as [|n IH]; intros cv L.
  - destruct cv; [simpl; lia | simpl in L; lia].
  - destruct cv as [|a rest]; [simpl; lia|].
    rewrite countVC_cons. cbn [length] in *.
    destruct (startsWith (a :: rest) (str "vc")) eqn:E.
    + apply startsWith_iff in E. destruct E as [r E].
      inversion E; subst.
      rewrite countVC_skip by discriminate.
      assert (Lr : length r <= n) by (cbn [length] in L; lia).
      pose proof (IH r Lr). cbn [length]. lia.
    + pose proof (IH rest ltac:(lia)). lia.
Qed.

Lemma cvSequence_length (stem : jsstring) :
  length (cvSequence stem) = length stem.
Proof. unfold cvSequence. rewrite length_map, length_seq. reflexivity. Qed.

(** X15.  [measure] returns the number of places where a vowel is
    directly followed by a consonant: its loop over [indexOf] misses
    none and counts none twice.  So the measure is at most half the
    length of the word, and zero for the empty word. *)
Theorem measure_count (stem : jsstring) :
  measure stem = countVC (cvSequence stem)
  /\ 2 * measure stem <= length stem
  /\ measure [] = 0.
Proof.
  split; [apply measure_countVC|]. split; [|reflexivity].
  rewrite measure_countVC, <- (cvSequence_length stem).
  apply (countVC_double (length (cvSequence stem))). lia.
Qed.

(** ** A stem is never longer than its word *)

Lemma replaceSuffix_nil_length (word suffix : jsstring) :
  endsWith word suffix = true ->
  length (replaceSuffix word suffix []) + length suffix = length word.
Proof.
  intros E. destruct suffix as [|c suffix].
  - unfold replaceSuffix. rewrite E. cbn. rewrite app_nil_r. lia.
  - rewrite replaceSuffix_length by (assumption || discriminate).
    apply endsWith_length in E. simpl in *. lia.
Qed.

Lemma replaceSuffix_le (word suffix replacement : jsstring) :
  length replacement <= length suffix ->
  length (replaceSuffix word suffix replacement) <= length word.
Proof.
  intros R. destruct (endsWith word suffix) eqn:E.
  - destruct suffix as [|c suffix].
    + destruct replacement; [|simpl in R; lia].
      unfold replaceSuffix. rewrite E. cbn. rewrite app_nil_r. lia.
    + rewrite replaceSuffix_length by (assumption || discriminate).
      apply endsWith_length in E. lia.
  - unfold replaceSuffix. rewrite E. cbn. lia.
Qed.

Lemma sliceEnd_length (word : jsstring) (k : nat) :
  0 < k -> length (sliceEnd word k) = length word - k.
Proof.
  intros K. unfold sliceEnd. destruct (Nat.eqb_spec k 0); [lia|].
  rewrite length_firstn. lia.
Qed.

(** No rule adds more than [k] characters when every replacement is at
    most [k] characters longer than its suffix. *)
Lemma applyRuleList_length (k : nat) (word : jsstring)
      (rules : list (rule condition)) :
  Forall (fun r : rule condition =>
            length (snd (fst r)) <= length (fst (fst r)) + k) rules ->
  length (applyRuleList word rules) <= length word + k.
Proof.
  induction rules as [|[[suffix replacement] c] rest IH]; intros F;
    cbn [applyRuleList]; [lia|].
  inversion F as [|? ? R F']; subst. cbn [fst snd] in R.
  destruct (eqb suffix (str "*d")) eqn:Star; cbn [andb].
  - apply eqb_eq in Star. subst suffix.
    change (length (str "*d")) with 2 in R.
    destruct (endsDoubleConsonant word) eqn:D.
    + destruct (holds c (sliceEnd word 2)); [|lia].
      unfold endsDoubleConsonant in D.
      apply andb_true_iff in D. destruct D as [D _].
      apply andb_true_iff in D. destruct D as [D _].
      apply Nat.leb_le in D.
      rewrite length_app, sliceEnd_length by lia. lia.
    + destruct (endsWith word (str "*d")) eqn:E; [|apply IH, F'].
      destruct (holds c _); [|lia].
      pose proof (replaceSuffix_nil_length _ _ E) as L.
      change (length (str "*d")) with 2 in L.
      rewrite length_app. lia.
  - destruct (endsWith word suffix) eqn:E; [|apply IH, F'].
    destruct (holds c _); [|lia].
    pose proof (replaceSuffix_nil_length _ _ E) as L.
    rewrite length_app. lia.
Qed.

Lemma applyRuleList_shrinks (word : jsstring) (rules : list (rule condition)) :
  Forall (fun r : rule condition =>
            length (snd (fst r)) <= length (fst (fst r)) + 0) rules ->
  length (applyRuleList word rules) <= length word.
Proof.
  intros F. pose proof (applyRuleList_length 0 word rules F). lia.
Qed.

Ltac rules_short :=
  repeat (apply Forall_cons; [cbn; lia|]); apply Forall_nil.

Lemma step1a_length (word : jsstring) : length (step1a word) <= length word.
Proof.
  unfold step1a.
  destruct (endsWith word (str "ies") && (length word =? 4)).
  - apply replaceSuffix_le. simpl. lia.
  - apply applyRuleList_shrinks. unfold step1aRules. rules_short.
Qed.

Lemma lastCharString_length (s : jsstring) :
  s <> [] -> length (lastCharString s) = 1.
Proof.
  intros N. unfold lastCharString, lastChar, charAt.
  destruct (length s) as [|n] eqn:L.
  - destruct s; [congruence | discriminate L].
  - destruct (nth_error s n) eqn:E; [reflexivity|].
    apply nth_error_None in E. lia.
Qed.

Lemma step1b_length (word : jsstring) : length (step1b word) <= length word.
Proof.
  unfold step1b.
  destruct (endsWith word (str "ied")).
  { destruct (length word =? 4); apply replaceSuffix_le; simpl; lia. }
  destruct (endsWith word (str "eed")) eqn:E.
  { cbv zeta. destruct (0 <? measure _); [|lia].
    pose proof (replaceSuffix_nil_length _ _ E) as L.
    rewrite length_app. simpl in *. lia. }
  destruct (step1bSuffix word) as [suffix|] eqn:F; [|lia].
  apply find_some in F. destruct F as [I F].
  apply andb_true_iff in F. destruct F as [E' V].
  pose proof (replaceSuffix_nil_length _ _ E') as L.
  pose proof (lastCharString_length _ (containsVowel_nonempty _ V)) as C.
  assert (S : 2 <= length suffix).
  { destruct I as [<-|[<-|[]]]; simpl; lia. }
  cbv zeta.
  match goal with
  | |- length (applyRuleList ?w ?rs) <= _ =>
      assert (A : length (applyRuleList w rs) <= length w + 1)
  end.
  { apply applyRuleList_length. unfold step1bRules.
    repeat (apply Forall_cons; [cbn [fst snd]; try rewrite C; simpl; lia|]).
    apply Forall_nil. }
  lia.
Qed.

Lemma step1c_length (word : jsstring) : length (step1c word) <= length word.
Proof.
  unfold step1c. cbv zeta. apply applyRuleList_shrinks. unfold step1cRules. rules_short.
Qed.

Lemma step2Table_length (word : jsstring) :
  length (step2Table word) <= length word.
Proof.
  unfold step2Table. apply applyRuleList_shrinks. unfold step2Rules. rules_short.
Qed.

Lemma step2_length (word : jsstring) : length (step2 word) <= length word.
Proof.
  unfold step2. generalize (length word) at 1 as n. intros n. revert word.
  induction n as [|n IH]; intros word.
  - rewrite step2Rec_0. apply step2Table_length.
  - rewrite step2Rec_S.
    destruct (endsWith word (str "alli")) eqn:E;
      [|cbn [andb]; apply step2Table_length].
    rewrite andb_true_l.
    destruct (hasPositiveMeasure _); [|apply step2Table_length].
    pose proof (step2_call_shorter _ E).
    pose proof (IH (replaceSuffix word (str "alli") (str "al"))). lia.
Qed.

Lemma step3_length (word : jsstring) : length (step3 word) <= length word.
Proof.
  unfold step3. apply applyRuleList_shrinks. unfold step3Rules. rules_short.
Qed.

Lemma step4_length (word : jsstring) : length (step4 word) <= length word.
Proof.
  unfold step4. apply applyRuleList_shrinks. unfold step4Rules. rules_short.
Qed.

Lemma step5a_length (word : jsstring) : length (step5a word) <= length word.
Proof.
  unfold step5a. destruct (endsWith word (str "e")) eqn:E; [|lia].
  pose proof (replaceSuffix_nil_length _ _ E) as L. cbv zeta.
  destruct (1 <? measure _); [lia|].
  destruct ((measure _ =? 1) && _); lia.
Qed.

Lemma step5b_length (word : jsstring) : length (step5b word) <= length word.
Proof.
  unfold step5b. apply applyRuleList_shrinks. unfold step5bRules. rules_short.
Qed.

Lemma steps_length (w : jsstring) : length (steps w) <= length w.
Proof.
  unfold steps.
  pose proof (step1a_length w).
  pose proof (step1b_length (step1a w)).
  pose proof (step1c_length (step1b (step1a w))).
  pose proof (step2_length (step1c (step1b (step1a w)))).
  pose proof (step3_length (step2 (step1c (step1b (step1a w))))).
  pose proof (step4_length (step3 (step2 (step1c (step1b (step1a w)))))).
  pose proof (step5a_length
                (step4 (step3 (step2 (step1c (step1b (step1a w))))))).
  pose proof (step5b_length
                (step5a (step4 (step3 (step2 (step1c (step1b (step1a w)))))))).
  lia.
Qed.

(** X16.  Stemming never lengthens a word: whenever [stem] returns a
    string, through the pool, the length test or the eight steps, it
    has at most as many characters as the word. *)
Theorem stem_not_longer (word s : jsstring) :
  stem word = VString s -> length s <= length word.
Proof.
  rewrite stem_unfold. rewrite <- (toLowerCase_length word).
  assert (R : stemRules (toLowerCase word) = VString s ->
              length s <= length (toLowerCase word)).
  { unfold stemRules. destruct (length (toLowerCase word) <=? 2);
      intros [= <-]; [lia | apply steps_length]. }
  destruct (getProp pool (toLowerCase word)) as [v|] eqn:G; [|exact R].
  destruct (truthy v); [|exact R].
  intros ->. unfold getProp in G.
  destruct (get pool (toLowerCase word)) as [st|] eqn:P.
  - injection G as <-. apply get_In in P.
    assert (A : Forall (fun kv : jsstring * jsstring =>
                          length (snd kv) <= length (fst kv)) pool).
    { rewrite pool_value. repeat constructor; simpl; lia. }
    rewrite Forall_forall in A. apply (A _ P).
  - apply get_In in G. unfold objectPrototype in G. simpl in G.
    repeat (destruct G as [G|G]; [discriminate G|]). contradiction.
Qed.

Lemma stem_not_longer_witness :
  length (str "relat") <= length (str "relational").
Proof.
  apply (stem_not_longer (str "relational") (str "relat")).
  vm_compute. reflexivity.
Defined.

(** ** A stem of letters is made of letters *)

Lemma letters_app (a b : jsstring) : letters a -> letters b -> letters (a ++ b).
Proof.
  unfold letters. rewrite forallb_app. intros -> ->. reflexivity.
Qed.

Lemma letters_firstn (n : nat) (s : jsstring) : letters s -> letters (firstn n s).
Proof.
  unfold letters. revert n. induction s as [|c s IH]; intros [|n] H;
    try reflexivity.
  simpl in *. apply andb_true_iff in H. destruct H as [-> H].
  rewrite (IH n H). reflexivity.
Qed.

Lemma letters_sliceEnd (s : jsstring) (k : nat) : letters s -> letters (sliceEnd s k).
Proof.
  intros H. unfold sliceEnd. destruct (k =? 0); [reflexivity|].
  apply letters_firstn, H.
Qed.

Lemma letters_replaceSuffix (word suffix replacement : jsstring) :
  letters word -> letters replacement ->
  letters (replaceSuffix word suffix replacement).
Proof.
  intros W R. unfold replaceSuffix.
  destruct (negb (endsWith word suffix)); [exact W|].
  destruct (eqb suffix []); apply letters_app; try assumption.
  apply letters_sliceEnd, W.
Qed.

Lemma letters_In (s : jsstring) (c : ascii) :
  letters s -> In c s -> isLowerLetter c = true.
Proof.
  unfold letters. rewrite forallb_forall. auto.
Qed.

Lemma letters_lastCharString (s : jsstring) : letters s -> letters (lastCharString s).
Proof.
  intros H. unfold lastCharString, lastChar, charAt.
  destruct (length s) as [|n]; [reflexivity|].
  destruct (nth_error s n) as [c|] eqn:E; [|reflexivity].
  apply nth_error_In in E. unfold letters. simpl.
  rewrite (letters_In s c H E). reflexivity.
Qed.

Lemma applyRuleList_letters (word : jsstring) (rules : list (rule condition)) :
  letters word ->
  Forall (fun r : rule condition => letters (snd (fst r))) rules ->
  letters (applyRuleList word rules).
Proof.
  intros W. induction rules as [|[[suffix replacement] c] rest IH]; intros F;
    cbn [applyRuleList]; [exact W|].
  inversion F as [|? ? R F']; subst. cbn [fst snd] in R.
  destruct (eqb suffix (str "*d") && endsDoubleConsonant word).
  - destruct (holds c _); [|exact W].
    apply letters_app; [apply letters_sliceEnd, W | exact R].
  - destruct (endsWith word suffix); [|apply IH, F'].
    destruct (holds c _); [|exact W].
    apply letters_app; [|exact R].
    apply letters_replaceSuffix; [exact W | reflexivity].
Qed.

Ltac rules_letters :=
  repeat (apply Forall_cons; [reflexivity|]); apply Forall_nil.

Lemma step1a_letters (word : jsstring) : letters word -> letters (step1a word).
Proof.
  intros W. unfold step1a.
  destruct (endsWith word (str "ies") && (length word =? 4)).
  - apply letters_replaceSuffix; [exact W | reflexivity].
  - apply applyRuleList_letters; [exact W|]. unfold step1aRules. rules_letters.
Qed.

Lemma step1b_letters (word : jsstring) : letters word -> letters (step1b word).
Proof.
  intros W. unfold step1b.
  destruct (endsWith word (str "ied")).
  { destruct (length word =? 4);
      (apply letters_replaceSuffix; [exact W | reflexivity]). }
  destruct (endsWith word (str "eed")).
  { cbv zeta. destruct (0 <? measure _); [|exact W].
    apply letters_app; [|reflexivity].
    apply letters_replaceSuffix; [exact W | reflexivity]. }
  destruct (step1bSuffix word) as [suffix|]; [|exact W]. cbv zeta.
  assert (I : letters (replaceSuffix word suffix []))
    by (apply letters_replaceSuffix; [exact W | reflexivity]).
  apply applyRuleList_letters; [exact I|]. unfold step1bRules.
  repeat (apply Forall_cons;
          [first [reflexivity | apply letters_lastCharString, I]|]).
  apply Forall_nil.
Qed.

Lemma step1c_letters (word : jsstring) : letters word -> letters (step1c word).
Proof.
  intros W. unfold step1c. cbv zeta.
  apply applyRuleList_letters; [exact W|]. unfold step1cRules. rules_letters.
Qed.

Lemma step2_letters (word : jsstring) : letters word -> letters (step2 word).
Proof.
  unfold step2. generalize (length word) as n. intros n. revert word.
  assert (T : forall word, letters word -> letters (step2Table word)).
  { intros word W. unfold step2Table.
    apply applyRuleList_letters; [exact W|]. unfold step2Rules. rules_letters. }
  induction n as [|n IH]; intros word W.
  - rewrite step2Rec_0. apply T, W.
  - rewrite step2Rec_S.
    destruct (endsWith word (str "alli") && _); [|apply T, W].
    apply IH, letters_replaceSuffix; [exact W | reflexivity].
Qed.

Lemma step3_letters (word : jsstring) : letters word -> letters (step3 word).
Proof.
  intros W. unfold step3.
  apply applyRuleList_letters; [exact W|]. unfold step3Rules. rules_letters.
Qed.

Lemma step4_letters (word : jsstring) : letters word -> letters (step4 word).
Proof.
  intros W. unfold step4.
  apply applyRuleList_letters; [exact W|]. unfold step4Rules. rules_letters.
Qed.

Lemma step5a_letters (word : jsstring) : letters word -> letters (step5a word).
Proof.
  intros W. unfold step5a.
  destruct (endsWith word (str "e")); [|exact W]. cbv zeta.
  assert (I : letters (replaceSuffix word (str "e") []))
    by (apply letters_replaceSuffix; [exact W | reflexivity]).
  destruct (1 <? measure _); [exact I|].
  destruct ((measure _ =? 1) && _); [exact I | exact W].
Qed.

Lemma step5b_letters (word : jsstring) : letters word -> letters (step5b word).
Proof.
  intros W. unfold step5b.
  apply applyRuleList_letters; [exact W|]. unfold step5bRules. rules_letters.
Qed.

Lemma steps_letters (w : jsstring) : letters w -> letters (steps w).
Proof.
  intros W. unfold steps.
  apply step5b_letters, step5a_letters, step4_letters, step3_letters,
    step2_letters, step1c_letters, step1b_letters, step1a_letters, W.
Qed.

(** Among the properties inherited from [Object.prototype] only
    [constructor] is spelled with the letters a to z alone. *)
Lemma objectPrototype_letters (k : jsstring) (v : value) :
  get objectPrototype k = Some v -> letters k ->
  k = str "constructor" /\ v = VNative (str "Object").
Proof.
  intros G L. apply get_In in G. unfold objectPrototype in G. simpl in G.
  destruct G as [G|G]; [inversion G; split; reflexivity|].
  repeat (destruct G as [G|G];
          [inversion G; subst; discriminate L|]).
  contradiction.
Qed.

Lemma pool_letters (k st : jsstring) : get pool k = Some st -> letters st /\ st <> [].
Proof.
  intros G. apply get_In in G. rewrite pool_value in G. simpl in G.
  repeat (destruct G as [G|G];
          [inversion G; subst; split; [reflexivity | discriminate]|]).
  contradiction.
Qed.

Lemma get_pool_constructor : get pool (str "constructor") = None.
Proof. vm_compute. reflexivity. Qed.

(** [stem] on a word of letters other than "constructor". *)
Lemma stem_letters (w : jsstring) :
  letters w -> w <> str "constructor" ->
  exists s, stem w = VString s /\ letters s /\ (w <> [] -> s <> []).
Proof.
  intros L N. rewrite stem_unfold.
  rewrite (toLowerCase_lower w L).
  assert (R : exists s, stemRules w = VString s /\ letters s /\ (w <> [] -> s <> [])).
  { unfold stemRules. destruct (Nat.leb_spec (length w) 2) as [B|B].
    - exists w. repeat split; auto.
    - exists (steps w). repeat split.
      + apply steps_letters, L.
      + intros _. apply steps_nonempty. lia. }
  unfold getProp. destruct (get pool w) as [st|] eqn:P.
  - destruct (pool_letters w st P) as [Ls Ns].
    destruct st as [|c st]; [congruence|]. cbn [truthy].
    exists (c :: st). repeat split; [exact Ls|]. intros _. discriminate.
  - destruct (get objectPrototype w) as [v|] eqn:O; [|exact R].
    destruct (objectPrototype_letters w v O L) as [E _]. contradiction.
Qed.

(** X17.  On a word of the letters a to z, [stem] returns a string of
    the letters a to z, not empty unless the word is, with one
    exception: for "constructor" the lookup [this.pool[w]] finds the
    inherited [Object] function and [stem] returns that function
    instead of a string. *)
Theorem stem_alphabetic (w : jsstring) :
  letters w ->
  (w <> str "constructor" ->
   exists s, stem w = VString s /\ letters s /\ (w <> [] -> s <> []))
  /\ (w = str "constructor" -> stem w = VNative (str "Object")).
Proof.
  intros L. split.
  - apply stem_letters, L.
  - intros ->. vm_compute. reflexivity.
Qed.

Lemma stem_alphabetic_witness :
  exists s, stem (str "reporting") = VString s /\ letters s
            /\ (str "reporting" <> [] -> s <> []).
Proof.
  apply (stem_alphabetic (str "reporting")); [reflexivity | discriminate].
Defined.

(** ** Single steps *)

Lemma endsWith_suffix (word a b : jsstring) :
  endsWith word (a ++ b) = true -> endsWith word b = true.
Proof.
  intros H. apply endsWith_iff in H. destruct H as [p ->].
  apply endsWith_iff. exists (p ++ a). rewrite app_assoc. reflexivity.
Qed.

Lemma endsWith_not_suffix (word a b : jsstring) :
  endsWith word b = false -> endsWith word (a ++ b) = false.
Proof.
  intros H. destruct (endsWith word (a ++ b)) eqn:E; [|reflexivity].
  apply endsWith_suffix in E. congruence.
Qed.

(** X18.  [step1a] on plurals, for every stem [p]: "sses" becomes "ss";
    "ies" becomes "ie" when the word has four characters and "i"
    otherwise; a word ending in "ss" is kept; and a word that does not
    end in "s" is returned as it is. *)
Theorem step1a_plurals (p : jsstring) :
  step1a (p ++ str "sses") = p ++ str "ss"
  /\ step1a (p ++ str "ies")
     = (if length p =? 1 then p ++ str "ie" else p ++ str "i")
  /\ step1a (p ++ str "ss") = p ++ str "ss"
  /\ (endsWith p (str "s") = false -> step1a p = p).
Proof.
  split; [|split; [|split]].
  - unfold step1a.
    rewrite (endsWith_app_false p (str "sses") (str "ies"))
      by (intros; reflexivity).
    cbn [andb]. unfold step1aRules.
    rewrite applyRuleList_hit; [ | reflexivity | apply endsWith_app ].
    cbn [holds]. rewrite replaceSuffix_app by discriminate.
    rewrite app_nil_r. reflexivity.
  - unfold step1a. rewrite endsWith_app, andb_true_l.
    rewrite length_app. change (length (str "ies")) with 3.
    destruct (Nat.eqb_spec (length p) 1) as [E|E].
    + rewrite E. cbn [Nat.add Nat.eqb].
      apply replaceSuffix_app. discriminate.
    + destruct (Nat.eqb_spec (length p + 3) 4) as [F|_]; [lia|].
      unfold step1aRules. skip_rule.
      rewrite applyRuleList_hit; [ | reflexivity | apply endsWith_app ].
      cbn [holds]. rewrite replaceSuffix_app by discriminate.
      rewrite app_nil_r. reflexivity.
  - unfold step1a.
    rewrite (endsWith_app_false p (str "ss") (str "ies"))
      by (intros; reflexivity).
    cbn [andb]. unfold step1aRules. do 2 skip_rule.
    rewrite applyRuleList_hit; [ | reflexivity | apply endsWith_app ].
    cbn [holds]. rewrite replaceSuffix_app by discriminate.
    rewrite app_nil_r. reflexivity.
  - intros H. unfold step1a.
    replace (endsWith p (str "ies")) with false
      by (symmetry; apply (endsWith_not_suffix p (str "ie") (str "s") H)).
    cbn [andb]. unfold step1aRules.
    rewrite applyRuleList_skip;
      [ | reflexivity | apply (endsWith_not_suffix p (str "sse") (str "s") H) ].
    rewrite applyRuleList_skip;
      [ | reflexivity | apply (endsWith_not_suffix p (str "ie") (str "s") H) ].
    rewrite applyRuleList_skip;
      [ | reflexivity | apply (endsWith_not_suffix p (str "s") (str "s") H) ].
    rewrite applyRuleList_skip; [ | reflexivity | exact H ].
    reflexivity.
Qed.

(** X19.  The first rule whose suffix matches decides alone.  On a word
    ending in "ement", [step4] removes "ement" when the measure of what
    is left exceeds 1 and otherwise returns the word as it is; the
    rules for "ment" and "ent" further down the table are not tried,
    as "basement" shows, which the rule for "ent" would shorten. *)
Theorem step4_ement (p : jsstring) :
  step4 (p ++ str "ement")
  = (if 1 <? measure p then p else p ++ str "ement")
  /\ step4 (str "basement") = str "basement"
  /\ (1 <? measure (str "basem")) = true.
Proof.
  split; [|split; vm_compute; reflexivity].
  unfold step4, step4Rules.
  do 8 skip_rule.
  rewrite applyRuleList_hit; [ | reflexivity | apply endsWith_app ].
  cbn [holds]. rewrite replaceSuffix_app by discriminate.
  rewrite !app_nil_r. reflexivity.
Qed.

(* ================================================================== *)
(** * More on [stemming] *)
(* ================================================================== *)

(** A character of a piece of [split] is a character of the string
    that is not white space, or was in the piece being built. *)
Lemma splitWS_chars (s : jsstring) :
  forall cur gap piece c,
    In piece (splitWS s cur gap) -> In c piece ->
    (In c s /\ isWhiteSpace c = false) \/ In c cur.
Proof.
  induction s as [|d rest IH]; intros cur gap piece c P C; cbn [splitWS] in P.
  - destruct P as [<-|[]]. right. apply in_rev. exact C.
  - destruct (isWhiteSpace d) eqn:W.
    + assert (Q : In piece (splitWS rest [] true) \/ piece = rev cur).
      { destruct gap; [left; exact P|].
        destruct P as [<-|P]; [right; reflexivity | left; exact P]. }
      destruct Q as [Q| ->].
      * destruct (IH [] true piece c Q C) as [[I N]|[]].
        left. split; [right; exact I | exact N].
      * right. apply in_rev. exact C.
    + destruct (IH (d :: cur) false piece c P C) as [[I N]|[<-|I]].
      * left. split; [right; exact I | exact N].
      * left. split; [left; reflexivity | exact W].
      * right. exact I.
Qed.

Lemma processed_char (x : ascii) :
  isLowerLetter (lowerChar (if isAsciiLetter x then x else " "%char)) = true
  \/ lowerChar (if isAsciiLetter x then x else " "%char) = " "%char.
Proof.
  destruct x as [[] [] [] [] [] [] [] []];
    first [left; reflexivity | right; reflexivity].
Qed.

Lemma processed_chars (content : jsstring) (c : ascii) :
  In c (toLowerCase (removeNonAlpha content)) ->
  isLowerLetter c = true \/ c = " "%char.
Proof.
  unfold toLowerCase, removeNonAlpha. rewrite map_map.
  intros H. apply in_map_iff in H. destruct H as [x [<- _]].
  apply processed_char.
Qed.

Lemma words_letters (content w : jsstring) :
  In w (words content) -> w <> [] /\ letters w.
Proof.
  intros H. split; [exact (splitWords_nonempty _ _ H)|].
  unfold words, splitWords in H. apply filter_In in H. destruct H as [H _].
  unfold letters. apply forallb_forall. intros c C.
  destruct (splitWS_chars _ [] false w c H C) as [[I N]|[]].
  destruct (processed_chars content c I) as [L| ->]; [exact L|].
  discriminate N.
Qed.

(** X20.  [stemming] calls [stem] only within its contract: every word
    that reaches the stopword filter and the stemmer is a non-empty
    string of the letters a to z, whatever characters the text holds. *)
Theorem stemming_words_are_letters (content : jsstring) :
  stemmingWords content
  = map stem (filter (fun word => negb (isStopword word)) (words content))
  /\ forall w, In w (words content) -> w <> [] /\ letters w.
Proof.
  split; [reflexivity|]. intros w. apply words_letters.
Qed.

Lemma letter_not_space (c : ascii) :
  isLowerLetter c = true -> negb (isWhiteSpace c) = true.
Proof.
  destruct c as [[] [] [] [] [] [] [] []]; intros H; try reflexivity;
    discriminate H.
Qed.

Lemma letters_solid (s : jsstring) : letters s -> solid s.
Proof.
  unfold letters, solid. rewrite !forallb_forall.
  intros H c C. apply letter_not_space, H, C.
Qed.

(** [split] reads a word without white space in one go. *)
Lemma splitWS_word (w : jsstring) :
  forall rest cur gap,
    solid w -> w <> [] ->
    splitWS (w ++ rest) cur gap = splitWS rest (rev w ++ cur) false.
Proof.
  induction w as [|c w IH]; intros rest cur gap S N; [congruence|].
  unfold solid in S. cbn [forallb] in S.
  apply andb_true_iff in S. destruct S as [C S].
  apply negb_true_iff in C.
  cbn [app splitWS]. rewrite C.
  destruct w as [|d w'].
  - reflexivity.
  - rewrite IH by (exact S || discriminate).
    cbn [rev]. rewrite <- !app_assoc. reflexivity.
Qed.

Lemma split_join (ws : list jsstring) :
  Forall (fun w => solid w /\ w <> []) ws -> ws <> [] ->
  forall gap, splitWS (join ws) [] gap = ws.
Proof.
  induction 1 as [|x rest [S N] F IH]; intros NE gap; [congruence|].
  destruct rest as [|y rest'].
  - cbn [join]. rewrite <- (app_nil_r x) at 1.
    rewrite splitWS_word by assumption.
    cbn [splitWS]. rewrite app_nil_r, rev_involutive. reflexivity.
  - change (join (x :: y :: rest')) with (x ++ " "%char :: join (y :: rest')).
    rewrite splitWS_word by assumption.
    cbn [splitWS]. change (isWhiteSpace " ") with true. cbv iota.
    rewrite app_nil_r, rev_involutive.
    rewrite IH by discriminate. reflexivity.
Qed.

(** Joining words with spaces and splitting again gives the words. *)
Lemma splitWords_join (ws : list jsstring) :
  Forall (fun w => solid w /\ w <> []) ws -> splitWords (join ws) = ws.
Proof.
  intros F. unfold splitWords, split.
  destruct ws as [|x rest]; [reflexivity|].
  rewrite split_join by (assumption || discriminate).
  apply forallb_filter_id. apply forallb_forall. intros w I.
  rewrite Forall_forall in F. destruct (F w I) as [_ N].
  destruct w; [congruence | reflexivity].
Qed.

Lemma stems_of_letters (l : list jsstring) :
  (forall w, In w l -> w <> [] /\ letters w /\ w <> str "constructor") ->
  exists ss, map stem l = map VString ss
             /\ Forall (fun s => solid s /\ s <> []) ss.
Proof.
  induction l as [|w l IH]; intros H.
  - exists []. split; [reflexivity | constructor].
  - destruct IH as [ss [E F]]; [intros x I; apply H; right; exact I|].
    destruct (H w (or_introl eq_refl)) as [N [L C]].
    destruct (stem_letters w L C) as [s [Es [Ls Ns]]].
    exists (s :: ss). split.
    + cbn [map]. rewrite Es, E. reflexivity.
    + constructor; [|exact F]. split; [apply letters_solid, Ls | apply Ns, N].
Qed.

(** X21.  [transform] reads back from the string [stemming] returns
    exactly the stems [stemming] computed, in their order, provided
    "constructor" is not a word of the text.  With that word the stem is
    a function, joined into the string as its source text and read back
    as six tokens. *)
Theorem tokens_are_stems (content : jsstring) :
  (~ In (str "constructor") (words content) ->
   map VString (tokens content) = stemmingWords content)
  /\ map string_of_list_ascii (tokens (str "constructor"))
     = ["function"; "Object()"; "{"; "[native"; "code]"; "}"]%string.
Proof.
  split; [|vm_compute; reflexivity].
  intros NC.
  destruct (stems_of_letters
              (filter (fun word => negb (isStopword word)) (words content)))
    as [ss [E F]].
  { intros w I. apply filter_In in I. destruct I as [I _].
    destruct (words_letters content w I) as [N L].
    repeat split; try assumption. intros ->. exact (NC I). }
  assert (S : stemmingWords content = map VString ss) by exact E.
  unfold tokens, stemming. rewrite S, map_map. cbn [toString].
  rewrite map_id, splitWords_join by exact F. reflexivity.
Qed.

Lemma removeNonAlpha_no_letter (content : jsstring) (c : ascii) :
  forallb (fun x => negb (isAsciiLetter x)) content = true ->
  In c (toLowerCase (removeNonAlpha content)) -> c = " "%char.
Proof.
  intros H I. unfold toLowerCase, removeNonAlpha in I. rewrite map_map in I.
  apply in_map_iff in I. destruct I as [x [<- X]].
  rewrite forallb_forall in H. specialize (H x X).
  apply negb_true_iff in H. rewrite H. reflexivity.
Qed.

Lemma words_no_letter (content : jsstring) :
  forallb (fun x => negb (isAsciiLetter x)) content = true ->
  words content = [].
Proof.
  intros H. destruct (words content) as [|w l] eqn:E; [reflexivity|].
  assert (I : In w (words content)) by (rewrite E; left; reflexivity).
  pose proof (splitWords_nonempty _ _ I) as N.
  unfold words, splitWords in I. apply filter_In in I. destruct I as [I _].
  destruct w as [|c w]; [congruence|].
  destruct (splitWS_chars _ [] false (c :: w) c I (or_introl eq_refl))
    as [[J W]|[]].
  rewrite (removeNonAlpha_no_letter content c H J) in W. discriminate W.
Qed.

(** X22.  A text without any letter a-z or A-Z, such as digits,
    punctuation or another script, gives no word: [stemming] returns the
    empty string and [transform] the zero vector, without an error. *)
Theorem no_letters_no_tokens (content : jsstring) :
  forallb (fun x => negb (isAsciiLetter x)) content = true ->
  stemmingWords content = []
  /\ stemming content = []
  /\ forall this,
       transform this content = repeat (Num 0) (length (vocabulary this)).
Proof.
  intros H.
  assert (S : stemmingWords content = []).
  { change (stemmingWords content)
      with (map stem (filter (fun word => negb (isStopword word))
                             (words content))).
    rewrite (words_no_letter content H). reflexivity. }
  split; [exact S|]. split.
  - unfold stemming. rewrite S. reflexivity.
  - intros this. apply transform_no_tokens, tokens_of_no_words, S.
Qed.

Lemma no_letters_no_tokens_witness : stemming (str "2026: 100% !?") = [].
Proof.
  apply (no_letters_no_tokens (str "2026: 100% !?")).
  vm_compute. reflexivity.
Defined.

Lemma stemmingWords_words (content : jsstring) :
  stemmingWords content
  = map stem (filter (fun word => negb (isStopword word)) (words content)).
Proof. reflexivity. Qed.

Lemma transform_tokens (this : SimpleTFIDF) (a b : jsstring) :
  tokens a = tokens b -> transform this a = transform this b.
Proof.
  intros E. unfold transform, rawVector. rewrite E. reflexivity.
Qed.

Lemma processed_lowerAsciiLetter (x : ascii) :
  lowerChar (if isAsciiLetter (lowerAsciiLetter x) then lowerAsciiLetter x
             else " "%char)
  = lowerChar (if isAsciiLetter x then x else " "%char).
Proof.
  destruct x as [[] [] [] [] [] [] [] []]; reflexivity.
Qed.

Lemma words_lowerAsciiLetter (content : jsstring) :
  words (map lowerAsciiLetter content) = words content.
Proof.
  unfold words. f_equal. unfold toLowerCase, removeNonAlpha.
  rewrite !map_map. apply map_ext. intros x. apply processed_lowerAsciiLetter.
Qed.

(** X23.  The pipeline ignores the case of the letters A to Z: two
    texts that become equal when A to Z are replaced by a to z, every
    other character left alone, have the same stems, the same joined
    string and the same feature vector. *)
Theorem stemming_ignores_case (a b : jsstring) :
  map lowerAsciiLetter a = map lowerAsciiLetter b ->
  stemmingWords a = stemmingWords b
  /\ stemming a = stemming b
  /\ forall this, transform this a = transform this b.
Proof.
  intros E.
  assert (S : stemmingWords a = stemmingWords b).
  { rewrite !stemmingWords_words.
    rewrite <- (words_lowerAsciiLetter a), <- (words_lowerAsciiLetter b), E.
    reflexivity. }
  assert (J : stemming a = stemming b) by (unfold stemming; rewrite S; reflexivity).
  split; [exact S|]. split; [exact J|].
  intros this. apply transform_tokens. unfold tokens. rewrite J. reflexivity.
Qed.

Lemma stemming_ignores_case_witness :
  stemming (str "BREAKING News") = stemming (str "breaking news").
Proof.
  apply (stemming_ignores_case (str "BREAKING News") (str "breaking news")).
  vm_compute. reflexivity.
Defined.

(** After a separator run the next piece starts afresh, so the flag
    does not change the pieces that are kept. *)
Lemma splitWS_gap (s : jsstring) :
  filter (fun word : jsstring => 0 <? length word) (splitWS s [] true)
  = filter (fun word : jsstring => 0 <? length word) (splitWS s [] false).
Proof.
  destruct s as [|c s]; [reflexivity|].
  cbn [splitWS]. destruct (isWhiteSpace c); reflexivity.
Qed.

Lemma splitWS_space (x y : jsstring) :
  forall cur gap,
    (gap = true -> cur = []) ->
    filter (fun word : jsstring => 0 <? length word)
           (splitWS (x ++ " "%char :: y) cur gap)
    = filter (fun word : jsstring => 0 <? length word) (splitWS x cur gap)
      ++ filter (fun word : jsstring => 0 <? length word) (splitWS y [] false).
Proof.
  induction x as [|d x IH]; intros cur gap G.
  - cbn [app splitWS]. change (isWhiteSpace " ") with true. cbv iota.
    destruct gap.
    + rewrite (G eq_refl). cbn [rev filter length Nat.ltb Nat.leb app].
      apply splitWS_gap.
    + cbn [filter]. destruct (0 <? length (rev cur));
        cbn [app]; rewrite splitWS_gap; reflexivity.
  - cbn [app splitWS]. destruct (isWhiteSpace d).
    + destruct gap.
      * apply IH. reflexivity.
      * cbn [filter]. rewrite IH by reflexivity.
        destruct (0 <? length (rev cur)); reflexivity.
    + apply IH. discriminate.
Qed.

Lemma words_separator (a b : jsstring) (c : ascii) :
  isAsciiLetter c = false -> words (a ++ c :: b) = words a ++ words b.
Proof.
  intros C. unfold words, removeNonAlpha, toLowerCase.
  rewrite !map_app. cbn [map]. rewrite C.
  change (lowerChar " ") with " "%char.
  unfold splitWords, split. apply splitWS_space. discriminate.
Qed.

Lemma join_app (xs ys : list jsstring) :
  xs <> [] -> ys <> [] -> join (xs ++ ys) = join xs ++ " "%char :: join ys.
Proof.
  intros X Y. induction xs as [|x xs IH]; [congruence|].
  destruct xs as [|x' xs'].
  - destruct ys; [congruence | reflexivity].
  - change (join ((x :: x' :: xs') ++ ys))
      with (x ++ " "%char :: join ((x' :: xs') ++ ys)).
    rewrite IH by discriminate.
    change (join (x :: x' :: xs')) with (x ++ " "%char :: join (x' :: xs')).
    rewrite <- app_assoc. reflexivity.
Qed.

Lemma splitWords_join_app (xs ys : list jsstring) :
  splitWords (join (xs ++ ys)) = splitWords (join xs) ++ splitWords (join ys).
Proof.
  destruct xs as [|x xs]; [reflexivity|].
  destruct ys as [|y ys].
  - rewrite app_nil_r. symmetry.
    apply (app_nil_r (splitWords (join (x :: xs)))).
  - rewrite join_app by discriminate.
    unfold splitWords, split. apply splitWS_space. discriminate.
Qed.

(** X24.  Every character that is not a letter separates words: the
    stems of a text cut at such a character are the stems of the part
    before it followed by the stems of the part after it, and so are
    the tokens [transform] reads. *)
Theorem stemming_separator (a b : jsstring) (c : ascii) :
  isAsciiLetter c = false ->
  stemmingWords (a ++ c :: b) = stemmingWords a ++ stemmingWords b
  /\ tokens (a ++ c :: b) = tokens a ++ tokens b.
Proof.
  intros C.
  assert (S : stemmingWords (a ++ c :: b) = stemmingWords a ++ stemmingWords b).
  { rewrite !stemmingWords_words, (words_separator a b c C).
    rewrite filter_app, map_app. reflexivity. }
  split; [exact S|].
  unfold tokens, stemming. rewrite S, map_app. apply splitWords_join_app.
Qed.

Lemma stemming_separator_witness :
  stemmingWords (str "fake-news")
  = stemmingWords (str "fake") ++ stemmingWords (str "news").
Proof.
  apply (stemming_separator (str "fake") (str "news") "-"%char).
  reflexivity.
Defined.

(* ================================================================== *)
(** * The debug score *)
(* ================================================================== *)

Open Scope R_scope.

Close Scope R_scope.

Open Scope R_scope.

Lemma debugLoop_dot (model : LogisticRegression) (fs cs pre : list R) (t s : R) :
  coef model = pre ++ cs -> length fs = length cs ->
  Forall (fun f => 0 <= f) fs ->
  debugLoop model (map Num fs) (length pre) (Num t, Num s)
  = (Num (t + dot fs cs), Num (s + dot fs cs)).
Proof.
  revert cs pre t s. induction fs as [|f fs IH]; intros cs pre t s C L F.
  - simpl. destruct cs; simpl; do 2 f_equal; lra.
  - destruct cs as [|c cs]; [discriminate L|].
    inversion F as [|? ? F0 F']; subst.
    cbn [map debugLoop].
    replace (S (length pre)) with (length (pre ++ [c]))
      by (rewrite length_app; simpl; lia).
    assert (C' : coef model = (pre ++ [c]) ++ cs)
      by (rewrite C, <- app_assoc; reflexivity).
    assert (L' : length fs = length cs) by (simpl in L; lia).
    destruct (Rgt_dec f 0) as [G|G].
    + rewrite (ngt_true _ _ G). cbv zeta. rewrite C, readNum_app.
      cbn [fst snd nmul nadd lift2].
      rewrite (IH cs (pre ++ [c]) _ _ C' L' F'). cbn [dot].
      do 2 f_equal; lra.
    + rewrite (ngt_false _ _ G).
      rewrite (IH cs (pre ++ [c]) _ _ C' L' F'). cbn [dot].
      assert (f = 0) by lra. subst f. do 2 f_equal; lra.
Qed.

Lemma tfidf_nonneg (vocab : list jsstring) (idf : list R) (toks : list jsstring) :
  Forall (fun d => 0 <= d) idf ->
  Forall (fun f => 0 <= f) (tfidf vocab idf toks).
Proof.
  intros H. unfold tfidf. apply Forall_forall. intros f I.
  apply in_map_iff in I. destruct I as [[w d] [<- I]].
  apply in_combine_r in I. rewrite Forall_forall in H.
  cbn [fst snd]. apply Rmult_le_pos; [apply pos_INR | apply H, I].
Qed.

Lemma l2normalize_nonneg (raw : list R) :
  Forall (fun f => 0 <= f) raw -> Forall (fun f => 0 <= f) (l2normalize raw).
Proof.
  intros H. unfold l2normalize.
  destruct (Rlt_dec 0 (sumSq raw)) as [P|_]; [|exact H].
  apply Forall_forall. intros f I. apply in_map_iff in I.
  destruct I as [x [<- I]]. rewrite Forall_forall in H.
  pose proof (sqrt_lt_R0 _ P). unfold norm.
  apply Rmult_le_pos; [apply H, I|].
  left. apply Rinv_0_lt_compat. assumption.
Qed.

(** X26.  The score [analyzeArticle] recomputes for the console skips
    every feature that is not above zero.  With IDF weights that are
    not negative no feature of [transform] is negative, and the logged
    score is the score [predict] used; a negative feature, as a negative
    IDF weight produces, is left out and the two scores differ. *)
Theorem debug_score (vocab : list jsstring) (idf : list R)
        (model : LogisticRegression) (text : jsstring) :
  NoDup vocab -> length idf = length vocab ->
  length (coef model) = length vocab ->
  Forall (fun d => 0 <= d) idf ->
  (exists fs,
      transform (newSimpleTFIDF vocab idf) text = map Num fs
      /\ debugScore model (transform (newSimpleTFIDF vocab idf) text)
         = (Num (dot fs (coef model)),
            Num (intercept model + dot fs (coef model)))
      /\ fakeProbability
           (predict model (transform (newSimpleTFIDF vocab idf) text))
         = Num (sigmoid (intercept model + dot fs (coef model))))
  /\ snd (debugScore {| coef := [1]; intercept := 0 |} [Num (-1)]) = Num 0
  /\ fakeProbability (predict {| coef := [1]; intercept := 0 |} [Num (-1)])
     = Num (sigmoid (0 + -1 * 1)).
Proof.
  intros N L Lc P. split.
  - exists (l2normalize (tfidf vocab idf (tokens text))).
    pose proof (transform_of_raw _ _ _ (rawVector_tfidf vocab idf text N L)) as T.
    assert (Lf : length (l2normalize (tfidf vocab idf (tokens text)))
                 = length (coef model)).
    { pose proof (transform_length_any (newSimpleTFIDF vocab idf) text) as Q.
      rewrite T, length_map in Q. cbn [vocabulary newSimpleTFIDF] in Q.
      rewrite Q, Lc. reflexivity. }
    split; [exact T|]. rewrite T. split.
    + unfold debugScore.
      pose proof (debugLoop_dot model
                    (l2normalize (tfidf vocab idf (tokens text)))
                    (coef model) [] 0 (intercept model) eq_refl Lf
                    (l2normalize_nonneg _ (tfidf_nonneg vocab idf _ P))) as D.
      cbn [length] in D. rewrite D. do 2 f_equal. lra.
    + rewrite (predict_value model _ Lf). reflexivity.
  - split.
    + unfold debugScore. cbn [debugLoop].
      rewrite ngt_false by lra. reflexivity.
    + unfold predict, sigmoid. cbn. reflexivity.
Qed.

Lemma debug_score_witness :
  exists fs,
    transform (newSimpleTFIDF [str "report"; str "fake"] [1; 2])
              (str "a fake report") = map Num fs
    /\ debugScore {| coef := [1/2; -2]; intercept := 1 |}
         (transform (newSimpleTFIDF [str "report"; str "fake"] [1; 2])
                    (str "a fake report"))
       = (Num (dot fs [1/2; -2]), Num (1 + dot fs [1/2; -2]))
    /\ fakeProbability
         (predict {| coef := [1/2; -2]; intercept := 1 |}
            (transform (newSimpleTFIDF [str "report"; str "fake"] [1; 2])
                       (str "a fake report")))
       = Num (sigmoid (1 + dot fs [1/2; -2])).
Proof.
  assert (N : NoDup [str "report"; str "fake"])
    by (repeat constructor; simpl; intuition discriminate).
  apply (debug_score [str "report"; str "fake"] [1; 2]
           {| coef := [1/2; -2]; intercept := 1 |} (str "a fake report")
           N eq_refl eq_refl).
  repeat constructor; lra.
Defined.

Close Scope R_scope.
